(** * Dice-roll simulation: a shallow embedding of [dice_roll_simulation.py]

    The script draws pairs of die faces, tabulates the sums 2..12 in a
    dictionary, rescales the counts to percentages and hands them to the
    console and to a chart.  This file embeds

    - the Python dictionary as an insertion-ordered association list,
    - exceptions as an error monad,
    - the random source as an explicit generator state threaded through
      [random.randint],
    - Python's [float] as IEEE-754 binary64, through the Standard Library's
      executable specification [SpecFloat] (round to nearest, ties to even),

    and proves the properties of the aggregation core. *)

From Stdlib Require Import ZArith List Bool Lia QArith Qpower Qabs Lqa Floats.SpecFloat.
From Stdlib Require Import Sorting.Sorted Sorting.Permutation.
Import ListNotations.

Local Open Scope Z_scope.

(** ** Exceptions *)

Inductive exn : Type :=
| KeyError (key : Z)
| ZeroDivisionError
| OverflowError.

Inductive result (A : Type) : Type :=
| Ok (a : A)
| Raise (e : exn).

Arguments Ok {A} a.
Arguments Raise {A} e.

Definition bind {A B : Type} (r : result A) (k : A -> result B) : result B :=
  match r with
  | Ok a => k a
  | Raise e => Raise e
  end.

Notation "x <- r ;; k" := (bind r (fun x => k))
  (at level 61, r at next level, right associativity).

(** ** Dictionaries

    A [dict] keeps its items in insertion order, as Python's does; a key
    occurs at most once ([dict_wf]).  Assigning to a key that is present
    replaces the value in place, assigning to a new key appends the item. *)

Module Dict.

Definition dict (V : Type) : Type := list (Z * V).

Definition empty {V : Type} : dict V := [].

Definition keys {V : Type} (d : dict V) : list Z := map fst d.

Definition values {V : Type} (d : dict V) : list V := map snd d.

Definition items {V : Type} (d : dict V) : list (Z * V) := d.

Definition dict_wf {V : Type} (d : dict V) : Prop := NoDup (keys d).

Fixpoint get {V : Type} (k : Z) (d : dict V) : option V :=
  match d with
  | [] => None
  | (k', v) :: d' => if k' =? k then Some v else get k d'
  end.

(** [d[k] = v] *)
Fixpoint set {V : Type} (k : Z) (v : V) (d : dict V) : dict V :=
  match d with
  | [] => [(k, v)]
  | (k', v') :: d' => if k' =? k then (k, v) :: d' else (k', v') :: set k v d'
  end.

(** [d[k]] as an expression: a missing key raises [KeyError]. *)
Definition getitem {V : Type} (k : Z) (d : dict V) : result V :=
  match get k d with
  | Some v => Ok v
  | None => Raise (KeyError k)
  end.

End Dict.

Import Dict.

(** [range(a, b)] *)
Definition py_range (a b : Z) : list Z :=
  map (fun i => a + Z.of_nat i) (seq 0 (Z.to_nat (b - a))).

(** [sum(xs)] over integers *)
Definition py_sum (xs : list Z) : Z := fold_left Z.add xs 0.

(** A [for] loop whose body may raise: the first exception leaves the loop. *)
Fixpoint for_each {A S : Type} (body : A -> S -> result S) (xs : list A) (s : S)
  : result S :=
  match xs with
  | [] => Ok s
  | x :: xs' => s' <- body x s ;; for_each body xs' s'
  end.

(** ** The sampler *)

Section Sampler.

(** The state of the generator behind the [random] module, and
    [random.randint(a, b)] as a step on it. *)
Variable rng : Type.
Variable randint : Z -> Z -> rng -> Z * rng.

(** [{i: 0 for i in range(2, 13)}] *)
Definition initial_counts : dict Z :=
  fold_left (fun d i => set i 0 d) (py_range 2 13) empty.

(** One pass through the body of the loop of [simulate_dice_rolls]. *)
Definition roll_once (st : dict Z * rng) : result (dict Z * rng) :=
  let '(roll_counts, g) := st in
  let '(die1, g) := randint 1 6 g in
  let '(die2, g) := randint 1 6 g in
  let total_sum := die1 + die2 in
  count <- getitem total_sum roll_counts ;;
  Ok (set total_sum (count + 1) roll_counts, g).

(** [for _ in range(num_rolls)]: [n] passes. *)
Fixpoint roll_loop (n : nat) (st : dict Z * rng) : result (dict Z * rng) :=
  match n with
  | O => Ok st
  | S n' => st' <- roll_once st ;; roll_loop n' st'
  end.

Definition simulate_dice_rolls (num_rolls : Z) (g : rng) : result (dict Z * rng) :=
  let roll_counts := initial_counts in
  roll_loop (Z.to_nat num_rolls) (roll_counts, g).

(** The default of the parameter, [num_rolls=10000]. *)
Definition simulate_dice_rolls_default : Z := 10000.

(** A call of [simulate_dice_rolls] with or without its argument. *)
Definition call_simulate_dice_rolls (num_rolls : option Z) (g : rng)
  : result (dict Z * rng) :=
  match num_rolls with
  | Some n => simulate_dice_rolls n g
  | None => simulate_dice_rolls simulate_dice_rolls_default g
  end.

(** The sums [total_sum] of the successive passes, in order; the loop of
    [simulate_dice_rolls] without its dictionary. *)
Fixpoint trial_sums (n : nat) (g : rng) : list Z :=
  match n with
  | O => []
  | S n' =>
      let '(die1, g) := randint 1 6 g in
      let '(die2, g) := randint 1 6 g in
      (die1 + die2) :: trial_sums n' g
  end.

End Sampler.

Arguments roll_once {rng} randint st.
Arguments roll_loop {rng} randint n st.
Arguments simulate_dice_rolls {rng} randint num_rolls g.
Arguments call_simulate_dice_rolls {rng} randint num_rolls g.
Arguments trial_sums {rng} randint n g.

(** ** Python numbers

    [int] is [Z].  [float] is IEEE-754 binary64: a [spec_float] at precision
    53 and maximal exponent 1024, with the Standard Library's executable
    round-to-nearest-even operations. *)

Module Float.

Definition prec : Z := 53.
Definition emax : Z := 1024.

Definition float : Type := spec_float.

(** An integer as an unrounded significand with exponent 0. *)
Definition of_int_exact (z : Z) : spec_float :=
  match z with
  | Z0 => S754_zero false
  | Zpos p => S754_finite false p 0
  | Zneg p => S754_finite true p 0
  end.

(** [float(z)]: the nearest binary64 value (used for the literal [100],
    which converts exactly). *)
Definition of_int (z : Z) : float := binary_normalize prec emax z 0 false.

(** [a / b] on integers (true division): the correctly rounded quotient of
    the two integers; a zero divisor raises [ZeroDivisionError], a quotient
    beyond the binary64 range raises [OverflowError]. *)
Definition int_truediv (a b : Z) : result float :=
  if b =? 0 then Raise ZeroDivisionError
  else
    match SFdiv prec emax (of_int_exact a) (of_int_exact b) with
    | S754_infinity _ => Raise OverflowError
    | q => Ok q
    end.

(** [x * y] on floats. *)
Definition mul (x y : float) : float := SFmul prec emax x y.

Definition pow2 (e : Z) : Q := Qpower 2 e.

(** The rational value of a finite float (0 for the special values). *)
Definition to_Q (x : float) : Q :=
  match x with
  | S754_finite s m e =>
      (if s then - inject_Z (Zpos m) else inject_Z (Zpos m)) * pow2 e
  | _ => 0%Q
  end.

Definition is_finite (x : float) : bool :=
  match x with
  | S754_zero _ | S754_finite _ _ _ => true
  | _ => false
  end.

End Float.

(** The arithmetic [calculate_percentages] relies on: the quotient of two
    integers, and the product of such a quotient with an integer literal. *)
Record arith : Type := {
  num : Type;
  truediv : Z -> Z -> result num;
  mul_int : num -> Z -> num
}.

(** What the interpreter does: binary64. *)
Definition binary64 : arith := {|
  num := Float.float;
  truediv := Float.int_truediv;
  mul_int := fun x n => Float.mul x (Float.of_int n)
|}.

(** The same expressions over the rationals, without rounding. *)
Definition exact : arith := {|
  num := Q;
  truediv := fun a b =>
    if b =? 0 then Raise ZeroDivisionError
    else Ok (inject_Z a / inject_Z b)%Q;
  mul_int := fun x n => (x * inject_Z n)%Q
|}.

(** ** Percentages *)

Section Percentages.

Variable A : arith.

(** The body of the loop of [calculate_percentages]. *)
Definition percentage_step (total_rolls : Z) (item : Z * Z)
  (percentages : dict (num A)) : result (dict (num A)) :=
  let '(total_sum, count) := item in
  q <- truediv A count total_rolls ;;
  let percentage := mul_int A q 100 in
  Ok (set total_sum percentage percentages).

Definition calculate_percentages_in (roll_counts : dict Z) (total_rolls : Z)
  : result (dict (num A)) :=
  let percentages := empty in
  for_each (percentage_step total_rolls) (items roll_counts) percentages.

End Percentages.

Definition calculate_percentages : dict Z -> Z -> result (dict Float.float) :=
  calculate_percentages_in binary64.

(** [calculate_percentages] with exact rational arithmetic. *)
Definition calculate_percentages_exact : dict Z -> Z -> result (dict Q) :=
  calculate_percentages_in exact.

(** ** Presentation *)

(** What the script sends to the console and to the plotting library. *)
Inductive output : Type :=
| PrintSimulating (num_rolls : Z)
| PrintResultsHeader
| PrintRoll (total_sum : Z) (percentage : Float.float)
| ShowBarChart (sums : list Z) (bars : list Float.float) (num_rolls : Z).

Fixpoint insert_sorted {V : Type} (kv : Z * V) (l : list (Z * V)) : list (Z * V) :=
  match l with
  | [] => [kv]
  | kv' :: l' =>
      if fst kv <=? fst kv' then kv :: l else kv' :: insert_sorted kv l'
  end.

(** [sorted(d.items())]; the keys of a dictionary are distinct, so the order
    of the keys decides. *)
Definition sorted_items {V : Type} (d : dict V) : list (Z * V) :=
  fold_right insert_sorted [] (items d).

(** [sorted(d.keys())] *)
Definition sorted_keys {V : Type} (d : dict V) : list Z :=
  map fst (sorted_items d).

Definition visualize_results (percentages : dict Float.float) (num_rolls : Z)
  : result (list output) :=
  let sums := sorted_keys percentages in
  bars <- for_each (fun s acc => v <- getitem s percentages ;; Ok (acc ++ [v]))
            sums [] ;;
  Ok [ShowBarChart sums bars num_rolls].

Section Main.

Variable rng : Type.
Variable randint : Z -> Z -> rng -> Z * rng.

Definition main (g : rng) : result (list output * rng) :=
  let NUM_ROLLS := 10000 in
  let out := [PrintSimulating NUM_ROLLS] in
  st <- call_simulate_dice_rolls randint (Some NUM_ROLLS) g ;;
  let '(roll_counts, g) := st in
  percentages <- calculate_percentages roll_counts NUM_ROLLS ;;
  let out := out ++ [PrintResultsHeader] in
  let out := out ++ map (fun '(total_sum, percentage) =>
                           PrintRoll total_sum percentage)
                        (sorted_items percentages) in
  chart <- visualize_results percentages NUM_ROLLS ;;
  Ok (out ++ chart, g).

End Main.

Arguments main {rng} randint g.

(** ** A concrete generator

    A linear congruential generator, used to run the model. *)

Module Lcg.

Definition rng : Type := Z.

Definition next (s : rng) : rng := (1103515245 * s + 12345) mod 2147483648.

Definition randint (a b : Z) (s : rng) : Z * rng :=
  let s' := next s in
  (a + (s' / 65536) mod (b - a + 1), s').

End Lcg.

(** [{2: 0, ..., 12: 0}] *)
Definition zero_counts : dict Z :=
  [(2, 0); (3, 0); (4, 0); (5, 0); (6, 0); (7, 0); (8, 0); (9, 0); (10, 0);
   (11, 0); (12, 0)].

Definition float_100 : Float.float := S754_finite false 7036874417766400 (-46).
Definition float_0 : Float.float := S754_zero false.

(** [{2: 0.0, ..., 12: 0.0}] *)
Definition zero_percentages : dict Float.float :=
  map (fun k => (k, float_0)) (keys zero_counts).

(** The number of times [k] occurs among the sums of a run. *)
Definition tally (sums : list Z) (k : Z) : Z :=
  Z.of_nat (count_occ Z.eq_dec sums k).

(** The contract of [random.randint(a, b)]: an integer [N] with
    [a <= N <= b]. *)
Definition randint_contract {rng : Type} (randint : Z -> Z -> rng -> Z * rng)
  : Prop :=
  forall a b g, a <= b -> a <= fst (randint a b g) <= b.

(** ** Rounding, seen from the rationals

    [located m l y]: the non-negative rational [y] lies in [[m, m+1)] and
    the location [l] tells where: on [m], below, on or above the midpoint.
    This is the reading of the truncated significands on which
    [binary_round_aux] works. *)
Definition located (m : Z) (l : location) (y : Q) : Prop :=
  0 <= m /\
  match l with
  | loc_Exact => (y == inject_Z m)%Q
  | loc_Inexact Lt => (inject_Z m < y /\ y < inject_Z m + (1 # 2))%Q
  | loc_Inexact Eq => (y == inject_Z m + (1 # 2))%Q
  | loc_Inexact Gt => (inject_Z m + (1 # 2) < y /\ y < inject_Z m + 1)%Q
  end.

(** The float of sign [s], significand [m >= 0] and exponent [e], as
    [binary_round_aux] builds it. *)
Definition mk_float (s : bool) (m e : Z) : Float.float :=
  match m with
  | Z0 => S754_zero s
  | Zpos p => S754_finite s p e
  | Zneg _ => S754_nan
  end.

(** The exponent at which [binary_round_aux] rounds a significand [m] of
    exponent [e]. *)
Definition round_exp (m e : Z) : Z :=
  Z.max e (fexp Float.prec Float.emax (Zdigits2 m + e)).

(** ** The percentage table, item by item

    A [for] loop that builds a list, as a traversal: *)
Fixpoint map_result {A B : Type} (f : A -> result B) (xs : list A)
  : result (list B) :=
  match xs with
  | [] => Ok []
  | x :: xs' => y <- f x ;; ys <- map_result f xs' ;; Ok (y :: ys)
  end.

(** The item of the percentage table that comes from one item of the counts. *)
Definition percentage_of (A : arith) (total_rolls : Z) (item : Z * Z)
  : result (Z * num A) :=
  q <- truediv A (snd item) total_rolls ;;
  Ok (fst item, mul_int A q 100).

(** The sum of a list of rationals. *)
Definition Qsum (xs : list Q) : Q := fold_right Qplus 0%Q xs.

(** ** The generator along a run *)

(** The generator after [k] draws of [randint 1 6]. *)
Fixpoint advance {rng : Type} (randint : Z -> Z -> rng -> Z * rng)
  (k : nat) (g : rng) : rng :=
  match k with
  | O => g
  | S k' => advance randint k' (snd (randint 1 6 g))
  end.

(** Bucket by bucket, the sum of two count tables over the same keys. *)
Definition add_counts (d1 d2 : dict Z) : dict Z :=
  map (fun '(k, c) => (k, c + match get k d2 with Some c' => c' | None => 0 end))
      d1.

(** A percentage table with every value negated. *)
Definition negate_percentages (d : dict Float.float) : dict Float.float :=
  map (fun '(k, p) => (k, SFopp p)) d.

(** * Properties *)

(** ** Dictionaries *)

Section DictFacts.

Variable V : Type.
Implicit Types (d : dict V) (k : Z) (v : V).

Lemma get_set_same k v d : get k (set k v d) = Some v.
Proof.
  induction d as [|[k' v'] d IH]; simpl.
  - now rewrite Z.eqb_refl.
  - destruct (k' =? k) eqn:E; simpl.
    + now rewrite Z.eqb_refl.
    + now rewrite E.
Qed.

Lemma get_set_other k k' v d : k' <> k -> get k' (set k v d) = get k' d.
Proof.
  intros Hne. induction d as [|[k0 v0] d IH]; simpl.
  - destruct (k =? k') eqn:E; [apply Z.eqb_eq in E; congruence | reflexivity].
  - destruct (k0 =? k) eqn:E; simpl.
    + apply Z.eqb_eq in E; subst k0.
      destruct (k =? k') eqn:E'; [apply Z.eqb_eq in E'; congruence | reflexivity].
    + now rewrite IH.
Qed.

Lemma get_In k d : In k (keys d) <-> exists v, get k d = Some v.
Proof.
  induction d as [|[k' v'] d IH]; simpl.
  - split; [tauto | intros [v Hv]; discriminate].
  - destruct (k' =? k) eqn:E.
    + apply Z.eqb_eq in E. split; eauto.
    + apply Z.eqb_neq in E. rewrite <- IH. tauto.
Qed.

Lemma get_None k d : ~ In k (keys d) <-> get k d = None.
Proof.
  rewrite get_In. destruct (get k d) as [v|]; split; intros H.
  - exfalso; eauto.
  - discriminate.
  - reflexivity.
  - intros [v Hv]; discriminate.
Qed.

(** Assignment to a key that is present keeps the order of the keys. *)
Lemma keys_set_present k v d : In k (keys d) -> keys (set k v d) = keys d.
Proof.
  induction d as [|[k' v'] d IH]; simpl; [tauto|].
  intros H. destruct (k' =? k) eqn:E; simpl.
  - apply Z.eqb_eq in E. now subst.
  - apply Z.eqb_neq in E. f_equal. apply IH. tauto.
Qed.

(** Assignment to a new key appends it. *)
Lemma keys_set_absent k v d : ~ In k (keys d) -> keys (set k v d) = keys d ++ [k].
Proof.
  induction d as [|[k' v'] d IH]; simpl; [reflexivity|].
  intros H. destruct (k' =? k) eqn:E; simpl.
  - apply Z.eqb_eq in E. tauto.
  - f_equal. apply IH. tauto.
Qed.

End DictFacts.

Lemma py_sum_acc (xs : list Z) (a : Z) : fold_left Z.add xs a = a + py_sum xs.
Proof.
  unfold py_sum. revert a. induction xs as [|x xs IH]; intros a; simpl.
  - lia.
  - rewrite IH, (IH x). lia.
Qed.

Lemma py_sum_cons (x : Z) (xs : list Z) : py_sum (x :: xs) = x + py_sum xs.
Proof. unfold py_sum at 1. simpl. apply py_sum_acc. Qed.

(** Replacing the value [c] of a key by [v] moves the sum by [v - c]. *)
Lemma py_sum_set (k c v : Z) (d : dict Z) :
  get k d = Some c ->
  py_sum (values (set k v d)) = py_sum (values d) - c + v.
Proof.
  induction d as [|[k' v'] d IH]; simpl; [discriminate|].
  destruct (k' =? k) eqn:E; simpl; intros H.
  - injection H as ->. rewrite !py_sum_cons. lia.
  - rewrite !py_sum_cons, (IH H). lia.
Qed.

(** ** The model at work

    Values the interpreter prints for the same expressions. *)

(** [1 / 3] is [0.3333333333333333]. *)
Example truediv_1_3 :
  Float.int_truediv 1 3 = Ok (S754_finite false 6004799503160661 (-54)).
Proof. reflexivity. Qed.

(** [(2**53 + 1) / 1] is [9007199254740992.0]: a tie goes to the even
    significand. *)
Example truediv_tie_to_even :
  Float.int_truediv (2 ^ 53 + 1) 1 = Ok (S754_finite false 4503599627370496 1).
Proof. reflexivity. Qed.

(** [0 / -5] is [-0.0]. *)
Example truediv_negative_zero : Float.int_truediv 0 (-5) = Ok (S754_zero true).
Proof. reflexivity. Qed.

(** [10**400 / 1] raises [OverflowError]; [1 / 10**400] is [0.0]. *)
Example truediv_out_of_range :
  Float.int_truediv (10 ^ 400) 1 = Raise OverflowError /\
  Float.int_truediv 1 (10 ^ 400) = Ok (S754_zero false).
Proof. split; vm_compute; reflexivity. Qed.

(** [float(100)] is [100.0], exactly. *)
Example of_int_100_value : Float.of_int 100 = float_100.
Proof. reflexivity. Qed.

(** Three rolls from the seed 1: one 6 and two 8s. *)
Example simulate_three_rolls :
  simulate_dice_rolls Lcg.randint 3 1
  = Ok ([(2, 0); (3, 0); (4, 0); (5, 0); (6, 1); (7, 0); (8, 2); (9, 0);
         (10, 0); (11, 0); (12, 0)], 368800899).
Proof. vm_compute. reflexivity. Qed.

(** ** The sampler *)

Lemma initial_counts_eq : initial_counts = zero_counts.
Proof. reflexivity. Qed.

Lemma bucket_cases (s : Z) :
  2 <= s <= 12 -> In s (keys zero_counts).
Proof.
  intros H.
  assert (s = 2 \/ s = 3 \/ s = 4 \/ s = 5 \/ s = 6 \/ s = 7 \/ s = 8 \/
          s = 9 \/ s = 10 \/ s = 11 \/ s = 12) as C by lia.
  simpl. intuition auto.
Qed.

Lemma bucket_range (s : Z) : In s (keys zero_counts) -> 2 <= s <= 12.
Proof. simpl. intuition lia. Qed.

Lemma tally_cons (s k : Z) (sums : list Z) :
  tally (s :: sums) k = (if s =? k then 1 else 0) + tally sums k.
Proof.
  unfold tally. simpl. destruct (Z.eq_dec s k) as [->|Hne].
  - rewrite Z.eqb_refl. lia.
  - apply Z.eqb_neq in Hne. rewrite Hne. lia.
Qed.

Lemma tally_nonneg (sums : list Z) (k : Z) : 0 <= tally sums k.
Proof. unfold tally. lia. Qed.

Section SamplerFacts.

Variable rng : Type.
Variable randint : Z -> Z -> rng -> Z * rng.
Hypothesis randint_range : randint_contract randint.

(** Two draws from [randint 1 6] add up to a sum between 2 and 12. *)
Lemma two_dice_range (g : rng) :
  2 <= fst (randint 1 6 g) + fst (randint 1 6 (snd (randint 1 6 g))) <= 12.
Proof.
  pose proof (randint_range 1 6 g ltac:(lia)).
  pose proof (randint_range 1 6 (snd (randint 1 6 g)) ltac:(lia)).
  lia.
Qed.

Lemma trial_sums_range (n : nat) (g : rng) :
  Forall (fun s => 2 <= s <= 12) (trial_sums randint n g).
Proof.
  revert g. induction n as [|n IH]; intros g; simpl; [constructor|].
  pose proof (two_dice_range g) as H.
  destruct (randint 1 6 g) as [die1 g1]; simpl in H.
  destruct (randint 1 6 g1) as [die2 g2]; simpl in H.
  constructor; auto.
Qed.

(** The loop keeps the eleven keys, adds to every bucket the number of times
    its sum was drawn, and never fails. *)
Lemma roll_loop_spec (n : nat) :
  forall (d : dict Z) (g : rng),
    keys d = keys zero_counts ->
    exists d' g',
      roll_loop randint n (d, g) = Ok (d', g') /\
      keys d' = keys zero_counts /\
      py_sum (values d') = py_sum (values d) + Z.of_nat n /\
      forall k c, get k d = Some c ->
                  get k d' = Some (c + tally (trial_sums randint n g) k).
Proof.
  induction n as [|n IH]; intros d g Hk.
  - exists d, g. simpl. repeat split; auto; try lia.
    intros k c ->. f_equal. unfold tally. simpl. lia.
  - pose proof (two_dice_range g) as Hr.
    cbn [roll_loop trial_sums]. unfold roll_once.
    destruct (randint 1 6 g) as [die1 g1]; simpl in Hr.
    destruct (randint 1 6 g1) as [die2 g2]; simpl in Hr.
    assert (In (die1 + die2) (keys d)) as Hin
      by (rewrite Hk; now apply bucket_cases).
    destruct (proj1 (get_In _ _ _) Hin) as [c0 Hc0].
    unfold getitem. rewrite Hc0. cbn [bind].
    destruct (IH (set (die1 + die2) (c0 + 1) d) g2) as (d' & g' & Hrun & Hk' & Hsum & Hget).
    { now rewrite keys_set_present. }
    exists d', g'. repeat split; auto.
    + rewrite Hsum, (py_sum_set _ _ _ _ Hc0). lia.
    + intros k c Hc. rewrite tally_cons.
      destruct (die1 + die2 =? k) eqn:E.
      * apply Z.eqb_eq in E. subst k.
        rewrite Hc0 in Hc. injection Hc as <-.
        rewrite (Hget _ (c0 + 1)) by apply get_set_same.
        f_equal. lia.
      * apply Z.eqb_neq in E.
        rewrite (Hget k c) by (rewrite get_set_other; auto).
        f_equal.
Qed.

(** [simulate_dice_rolls] returns, for every argument: the eleven buckets in
    the order 2..12, holding the tallies of the sums drawn. *)
Lemma simulate_dice_rolls_spec (num_rolls : Z) (g : rng) :
  exists counts g',
    simulate_dice_rolls randint num_rolls g = Ok (counts, g') /\
    keys counts = keys zero_counts /\
    py_sum (values counts) = Z.max 0 num_rolls /\
    forall k, 2 <= k <= 12 ->
              get k counts =
              Some (tally (trial_sums randint (Z.to_nat num_rolls) g) k).
Proof.
  unfold simulate_dice_rolls. rewrite initial_counts_eq.
  destruct (roll_loop_spec (Z.to_nat num_rolls) zero_counts g eq_refl)
    as (d' & g' & Hrun & Hk & Hsum & Hget).
  exists d', g'. repeat split; auto.
  - rewrite Hsum. change (py_sum (values zero_counts)) with 0. lia.
  - intros k Hk2. apply bucket_cases in Hk2.
    apply get_In in Hk2 as [c Hc].
    rewrite (Hget _ _ Hc).
    assert (c = 0) as ->.
    { simpl in Hc.
      repeat match type of Hc with
             | (if ?b then _ else _) = _ => destruct b; [congruence|]
             end.
      discriminate. }
    reflexivity.
Qed.

End SamplerFacts.

(** ** Binary64 rounding *)

Module FloatFacts.

Import Float.

Local Open Scope Q_scope.

Lemma pow2_pos (e : Z) : 0 < pow2 e.
Proof. unfold pow2. apply Qpower_0_lt. reflexivity. Qed.

Lemma pow2_add (a b : Z) : pow2 (a + b) == pow2 a * pow2 b.
Proof. unfold pow2. apply Qpower_plus. discriminate. Qed.

Lemma pow2_0 : pow2 0 == 1.
Proof. reflexivity. Qed.

Lemma pow2_succ (a : Z) : pow2 (a + 1) == 2 * pow2 a.
Proof. rewrite pow2_add. change (pow2 1) with 2. ring. Qed.

Lemma pow2_pred (a : Z) : pow2 (a - 1) == (1 # 2) * pow2 a.
Proof.
  replace a with ((a - 1) + 1)%Z at 2 by ring.
  rewrite pow2_succ. field.
Qed.

Lemma pow2_inv (a : Z) : pow2 a * pow2 (- a) == 1.
Proof. rewrite <- pow2_add. now replace (a + - a)%Z with 0%Z by ring. Qed.

Lemma pow2_nonneg_Z (a : Z) : (0 <= a)%Z -> pow2 a == inject_Z (2 ^ a).
Proof. intros H. unfold pow2. now rewrite Zpower_Qpower. Qed.

Lemma pow2_le (a b : Z) : (a <= b)%Z -> pow2 a <= pow2 b.
Proof.
  intros H. replace b with (a + (b - a))%Z by ring.
  rewrite pow2_add, (pow2_nonneg_Z (b - a)) by lia.
  assert (1 <= 2 ^ (b - a))%Z as H1
    by (change 1%Z with (2 ^ 0)%Z; apply Z.pow_le_mono_r; lia).
  rewrite Zle_Qle in H1. pose proof (pow2_pos a) as Ha.
  change (inject_Z 1) with 1 in H1.
  set (t := inject_Z (2 ^ (b - a))) in *. set (x := pow2 a) in *.
  nra.
Qed.

Lemma pow2_lt_Z (m j : Z) : (0 <= j)%Z -> inject_Z m < pow2 j -> (m < 2 ^ j)%Z.
Proof. intros Hj H. rewrite pow2_nonneg_Z in H by assumption. now rewrite Zlt_Qlt. Qed.

(** *** Digits *)

Lemma digits2_pos_size (p : positive) : digits2_pos p = Pos.size p.
Proof. induction p; simpl; congruence. Qed.

Lemma Zdigits2_nonneg (m : Z) : (0 <= Zdigits2 m)%Z.
Proof. destruct m; simpl; lia. Qed.

Lemma Zdigits2_upper (m : Z) : (0 <= m)%Z -> (m < 2 ^ Zdigits2 m)%Z.
Proof.
  destruct m as [|p|p]; cbn [Zdigits2]; intros H; try lia.
  rewrite digits2_pos_size. pose proof (Pos.size_gt p) as G.
  apply Pos2Z.pos_lt_pos in G. now rewrite Pos2Z.inj_pow in G.
Qed.

Lemma Zdigits2_lower (m : Z) : (0 < m)%Z -> (2 ^ (Zdigits2 m - 1) <= m)%Z.
Proof.
  destruct m as [|p|p]; cbn [Zdigits2]; intros H; try lia.
  rewrite digits2_pos_size. pose proof (Pos.size_le p) as G.
  assert (Z.pos (2 ^ Pos.size p) <= Z.pos p~0)%Z as G' by exact G.
  rewrite Pos2Z.inj_pow in G'.
  replace (Z.pos (Pos.size p)) with ((Z.pos (Pos.size p) - 1) + 1)%Z in G' by ring.
  rewrite Z.pow_add_r in G' by lia. lia.
Qed.

(** A significand below [2^j] has at most [j] digits. *)
Lemma Zdigits2_le (m j : Z) : (0 <= j)%Z -> (0 <= m < 2 ^ j)%Z -> (Zdigits2 m <= j)%Z.
Proof.
  intros Hj [H0 H1]. destruct (Z.eq_dec m 0) as [->|Hm]; [simpl; lia|].
  pose proof (Zdigits2_lower m ltac:(lia)) as L.
  destruct (Z_le_gt_dec (Zdigits2 m) j) as [|G]; [assumption|exfalso].
  assert (2 ^ j <= 2 ^ (Zdigits2 m - 1))%Z by (apply Z.pow_le_mono_r; lia).
  lia.
Qed.

(** *** Locations *)

Lemma located_ext (m : Z) (l : location) (y y' : Q) :
  y == y' -> located m l y -> located m l y'.
Proof.
  intros E [H0 H]. split; [assumption|].
  destruct l as [|[| |]]; rewrite <- E; assumption.
Qed.

Lemma located_bounds (m : Z) (l : location) (y : Q) :
  located m l y -> inject_Z m <= y < inject_Z m + 1.
Proof. intros [_ H]. destruct l as [|[| |]]; lra. Qed.

Lemma shr_record_of_loc_m (m : Z) (l : location) :
  shr_m (shr_record_of_loc m l) = m.
Proof. now destruct l as [|[| |]]. Qed.

Lemma loc_of_shr_record_of_loc (m : Z) (l : location) :
  loc_of_shr_record (shr_record_of_loc m l) = l.
Proof. now destruct l as [|[| |]]. Qed.

(** One shift to the right halves the number and keeps track of where it lies. *)
Lemma shr_1_located (mrs : shr_record) (y : Q) :
  located (shr_m mrs) (loc_of_shr_record mrs) y ->
  located (shr_m (shr_1 mrs)) (loc_of_shr_record (shr_1 mrs)) (y * (1 # 2)).
Proof.
  destruct mrs as [m r s]. unfold located. cbn [shr_m].
  intros [H0 H].
  destruct m as [|[p|p|]|p]; try lia.
  - destruct r, s; cbn in *; unfold inject_Z in *; split; try lia; lra.
  - assert (inject_Z (Z.pos p~1) == 2 * inject_Z (Z.pos p) + 1) as E.
    { rewrite Pos2Z.inj_xI, inject_Z_plus, inject_Z_mult. reflexivity. }
    cbn [shr_1 shr_m loc_of_shr_record orb].
    set (P := inject_Z (Z.pos p)) in *. set (P1 := inject_Z (Z.pos p~1)) in *.
    destruct r, s; cbn [loc_of_shr_record orb] in *; split; try lia; lra.
  - assert (inject_Z (Z.pos p~0) == 2 * inject_Z (Z.pos p)) as E.
    { rewrite Pos2Z.inj_xO, inject_Z_mult. reflexivity. }
    cbn [shr_1 shr_m loc_of_shr_record orb].
    set (P := inject_Z (Z.pos p)) in *. set (P1 := inject_Z (Z.pos p~0)) in *.
    destruct r, s; cbn [loc_of_shr_record orb] in *; split; try lia; lra.
  - destruct r, s; cbn in *; unfold inject_Z in *; split; try lia; lra.
Qed.

Lemma iter_shr_1_located (p : positive) :
  forall (mrs : shr_record) (y : Q),
    located (shr_m mrs) (loc_of_shr_record mrs) y ->
    located (shr_m (iter_pos shr_1 p mrs))
            (loc_of_shr_record (iter_pos shr_1 p mrs))
            (y * pow2 (- Z.pos p)).
Proof.
  induction p as [p IH|p IH|]; intros mrs y H; cbn [iter_pos].
  - apply shr_1_located, IH, IH in H.
    eapply located_ext; [|exact H].
    replace (- Z.pos p~1)%Z with (-1 + (- Z.pos p + - Z.pos p))%Z by lia.
    rewrite !pow2_add. change (pow2 (-1)) with (1 # 2). ring.
  - apply IH, IH in H.
    eapply located_ext; [|exact H].
    replace (- Z.pos p~0)%Z with (- Z.pos p + - Z.pos p)%Z by lia.
    rewrite !pow2_add. ring.
  - now apply shr_1_located in H.
Qed.

Lemma shr_nonpos (mrs : shr_record) (e n : Z) : (n <= 0)%Z -> shr mrs e n = (mrs, e).
Proof. destruct n; simpl; intros H; try reflexivity. lia. Qed.

Lemma shr_located (m : Z) (l : location) (e n : Z) (y : Q) :
  located m l y ->
  (e + Z.max 0 n)%Z = snd (shr (shr_record_of_loc m l) e n) /\
  located (shr_m (fst (shr (shr_record_of_loc m l) e n)))
          (loc_of_shr_record (fst (shr (shr_record_of_loc m l) e n)))
          (y * pow2 (- Z.max 0 n)).
Proof.
  intros H. destruct n as [|p|p]; cbn [shr fst snd].
  - split; [cbn; lia|].
    rewrite shr_record_of_loc_m, loc_of_shr_record_of_loc.
    eapply located_ext; [|exact H]. cbn. ring.
  - split; [lia|]. replace (Z.max 0 (Z.pos p)) with (Z.pos p) by lia.
    apply iter_shr_1_located.
    now rewrite shr_record_of_loc_m, loc_of_shr_record_of_loc.
  - split; [lia|]. replace (Z.max 0 (Z.neg p)) with 0%Z by lia.
    rewrite shr_record_of_loc_m, loc_of_shr_record_of_loc.
    eapply located_ext; [|exact H]. cbn. ring.
Qed.

(** Rounding to nearest moves a located number by at most one half. *)
Lemma round_nearest_even_located (m : Z) (l : location) (y : Q) :
  located m l y ->
  (m <= round_nearest_even m l <= m + 1)%Z /\
  Qabs (inject_Z (round_nearest_even m l) - y) <= 1 # 2.
Proof.
  intros [H0 H].
  assert (inject_Z (m + 1) == inject_Z m + 1) as E
    by (rewrite inject_Z_plus; reflexivity).
  destruct l as [|[| |]]; cbn [round_nearest_even].
  - split; [lia|]. apply Qabs_Qle_condition. lra.
  - destruct (Z.even m); (split; [lia|]); apply Qabs_Qle_condition;
      try rewrite E; lra.
  - split; [lia|]. apply Qabs_Qle_condition. lra.
  - split; [lia|]. apply Qabs_Qle_condition. rewrite E. lra.
Qed.

Lemma round_exp_ge_emin (m e : Z) : (emin prec emax <= round_exp m e)%Z.
Proof. unfold round_exp, fexp. lia. Qed.

(** The rational value of [mk_float]. *)
Lemma to_Q_mk_float (s : bool) (m e : Z) :
  (0 <= m)%Z ->
  to_Q (mk_float s m e) == (if s then - inject_Z m else inject_Z m) * pow2 e.
Proof.
  destruct m as [|p|p]; cbn [mk_float to_Q]; intros H; try lia.
  - destruct s; unfold inject_Z; ring.
  - reflexivity.
Qed.

Lemma mk_float_is_finite (s : bool) (m e : Z) :
  (0 <= m)%Z -> is_finite (mk_float s m e) = true.
Proof. destruct m; cbn; intros; try reflexivity; lia. Qed.

(** [binary_round_aux] on a located significand: below the overflow
    threshold it returns the float of a significand [m] at the rounding
    exponent, or one above it, within half a unit of that exponent. *)
Lemma binary_round_aux_spec (sx : bool) (mx ex : Z) (lx : location) (y : Q) :
  located mx lx y ->
  (round_exp mx ex < emax - prec)%Z ->
  exists m e,
    binary_round_aux prec emax sx mx ex lx = mk_float sx m e /\
    (0 <= m)%Z /\
    (round_exp mx ex <= e <= round_exp mx ex + 1)%Z /\
    Qabs (inject_Z m * pow2 e - y * pow2 ex) <= pow2 (round_exp mx ex - 1).
Proof.
  intros Hl HE.
  pose proof (round_exp_ge_emin mx ex) as Hemin.
  unfold binary_round_aux, shr_fexp.
  set (n := (fexp prec emax (Zdigits2 mx + ex) - ex)%Z).
  destruct (shr_located mx lx ex n y Hl) as [He1 L1].
  destruct (shr (shr_record_of_loc mx lx) ex n) as [mrs1 e1].
  cbn [fst snd] in He1, L1.
  assert (e1 = round_exp mx ex) as HE1 by (unfold round_exp; lia).
  destruct (round_nearest_even_located _ _ _ L1) as [Hm1 Herr].
  set (m1 := round_nearest_even (shr_m mrs1) (loc_of_shr_record mrs1)) in *.
  set (y1 := y * pow2 (- Z.max 0 n)) in *.
  assert (0 <= shr_m mrs1)%Z as Hm0 by apply L1.
  assert (shr_m mrs1 < 2 ^ prec)%Z as Hlt.
  { apply pow2_lt_Z; [unfold prec; lia|].
    apply Qle_lt_trans with y1; [apply (located_bounds _ _ _ L1)|].
    assert (0 <= mx)%Z as Hmx by apply Hl.
    assert (y < pow2 (Zdigits2 mx)) as Hy.
    { pose proof (Zdigits2_upper mx Hmx) as U.
      pose proof (Zdigits2_nonneg mx) as N.
      rewrite pow2_nonneg_Z by assumption.
      assert (mx + 1 <= 2 ^ Zdigits2 mx)%Z as U' by lia.
      rewrite Zle_Qle, inject_Z_plus in U'.
      pose proof (located_bounds _ _ _ Hl). change (inject_Z 1) with 1 in U'. lra. }
    unfold y1.
    apply Qlt_le_trans with (pow2 (Zdigits2 mx) * pow2 (- Z.max 0 n)).
    - pose proof (pow2_pos (- Z.max 0 n)).
      set (a := pow2 (- Z.max 0 n)) in *. set (b := pow2 (Zdigits2 mx)) in *. nra.
    - rewrite <- pow2_add. apply pow2_le. unfold n, fexp. lia. }
  assert (y * pow2 ex == y1 * pow2 e1) as Hscale.
  { unfold y1. rewrite <- He1, <- Qmult_assoc, <- pow2_add.
    now replace (- Z.max 0 n + (ex + Z.max 0 n))%Z with ex by ring. }
  assert (pow2 (round_exp mx ex - 1) == (1 # 2) * pow2 e1) as Hhalf
    by (rewrite <- HE1; apply pow2_pred).
  destruct (Z.eq_dec m1 (2 ^ prec)) as [Hfull|Hnot].
  - (* the significand was rounded up to a power of two: one more shift *)
    rewrite Hfull.
    replace (fexp prec emax (Zdigits2 (2 ^ prec) + e1) - e1)%Z with 1%Z.
    2:{ change (Zdigits2 (2 ^ prec)) with 54%Z.
        unfold fexp, emin, prec, emax in *. lia. }
    exists (2 ^ (prec - 1))%Z, (e1 + 1)%Z.
    split; [|split; [|split]].
    + cbn. destruct (e1 + 1 <=? 971)%Z eqn:Hle; [reflexivity|].
      apply Z.leb_gt in Hle. unfold emax, prec in HE. lia.
    + cbn. lia.
    + lia.
    + rewrite Hscale, Hhalf, pow2_succ.
      assert (inject_Z (2 ^ (prec - 1)) * (2 * pow2 e1) - y1 * pow2 e1
              == (inject_Z m1 - y1) * pow2 e1) as ->.
      { rewrite Hfull.
        assert (inject_Z (2 ^ prec) == 2 * inject_Z (2 ^ (prec - 1))) as ->
          by (unfold Qeq; reflexivity).
        ring. }
      rewrite Qabs_Qmult, (Qabs_pos (pow2 e1)) by (apply Qlt_le_weak, pow2_pos).
      pose proof (pow2_pos e1).
      set (a := Qabs (inject_Z m1 - y1)) in *. set (b := pow2 e1) in *. nra.
  - (* no further shift *)
    assert (0 <= m1 < 2 ^ prec)%Z as Hm1' by lia.
    pose proof (Zdigits2_le m1 prec ltac:(unfold prec; lia) Hm1') as Hd.
    rewrite shr_nonpos by (unfold fexp in *; lia).
    cbn [shr_m shr_record_of_loc].
    exists m1, e1. split; [|split; [|split]].
    + unfold mk_float. destruct m1 as [|p|p]; try reflexivity.
      destruct (e1 <=? emax - prec)%Z eqn:Hle; [reflexivity|].
      apply Z.leb_gt in Hle. lia.
    + lia.
    + lia.
    + rewrite Hscale, Hhalf.
      assert (inject_Z m1 * pow2 e1 - y1 * pow2 e1
              == (inject_Z m1 - y1) * pow2 e1) as -> by ring.
      rewrite Qabs_Qmult, (Qabs_pos (pow2 e1)) by (apply Qlt_le_weak, pow2_pos).
      pose proof (pow2_pos e1).
      set (a := Qabs (inject_Z m1 - y1)) in *. set (b := pow2 e1) in *. nra.
Qed.

(** *** Division of integers *)

Lemma Qmult_cancel_r (a b n : Q) : 0 < n -> a * n == b * n -> a == b.
Proof. intros Hn H. apply Qmult_inj_r with n; [lra | assumption]. Qed.

(** The location computed from a remainder [r] of a division by [nb]. *)
Lemma new_location_located (nb q r : Z) (y : Q) :
  (0 < nb)%Z -> (0 <= r < nb)%Z -> (0 <= q)%Z ->
  y * inject_Z nb == inject_Z (q * nb + r) ->
  located q (new_location nb r) y.
Proof.
  intros Hnb Hr Hq Hy. split; [assumption|].
  rewrite inject_Z_plus, inject_Z_mult in Hy.
  assert (0 < inject_Z nb) as HN by (now rewrite <- (Zlt_Qlt 0)).
  assert (0 <= inject_Z r) as HR0 by (now rewrite <- (Zle_Qle 0)).
  assert (y == inject_Z q + inject_Z r / inject_Z nb) as Ey.
  { apply Qmult_cancel_r with (inject_Z nb); [assumption|].
    rewrite Hy. field. lra. }
  assert (forall a b : Z, (a < b)%Z -> inject_Z a / inject_Z nb < inject_Z b / inject_Z nb) as Hdiv.
  { intros a b Hab. rewrite Zlt_Qlt in Hab. apply Qmult_lt_compat_r; [|assumption].
    now apply Qinv_lt_0_compat. }
  assert (inject_Z nb / inject_Z nb == 1) as Hone by (field; lra).
  assert (inject_Z (2 * r) / inject_Z nb == 2 * (inject_Z r / inject_Z nb)) as H2r
    by (rewrite inject_Z_mult; change (inject_Z 2) with 2; field; lra).
  assert (inject_Z 0 / inject_Z nb == 0) as H0 by (unfold inject_Z at 1; field; lra).
  assert (r <> 0%Z -> 0 < inject_Z r / inject_Z nb < 1) as Hf.
  { intros Hr0. pose proof (Hdiv 0%Z r ltac:(lia)) as Hpos. rewrite H0 in Hpos.
    pose proof (Hdiv r nb ltac:(lia)) as Hlt1. rewrite Hone in Hlt1. tauto. }
  set (f := inject_Z r / inject_Z nb) in *.
  unfold new_location, new_location_even, new_location_odd.
  destruct (Z.even nb) eqn:Hev; destruct (Z.eqb_spec r 0) as [Hr0|Hr0];
    try (subst r; fold f in H0; lra); specialize (Hf Hr0).
  - destruct (Z.compare_spec (2 * r) nb) as [E|L|G].
    + rewrite E, Hone in H2r. lra.
    + apply Hdiv in L. rewrite Hone, H2r in L. lra.
    + apply Hdiv in G. rewrite Hone, H2r in G. lra.
  - assert (2 * r <> nb)%Z as Hodd.
    { intros E. rewrite <- E, Z.even_mul in Hev. discriminate. }
    destruct (Z.compare_spec (2 * r + 1) nb) as [E|L|G].
    + assert (2 * r < nb)%Z as L by lia.
      apply Hdiv in L. rewrite Hone, H2r in L. lra.
    + assert (2 * r < nb)%Z as L' by lia.
      apply Hdiv in L'. rewrite Hone, H2r in L'. lra.
    + assert (nb < 2 * r)%Z as G' by lia.
      apply Hdiv in G'. rewrite Hone, H2r in G'. lra.
Qed.

(** The quotient of two positive integers [a <= b], as [SFdiv] prepares it
    for rounding: a significand located at the exact quotient, at an exponent
    of at most -53, and short enough to be rounded at exponent -52 or below. *)
Lemma SFdiv_core_int (a b : positive) :
  (a <= b)%positive ->
  exists q e l y,
    SFdiv_core_binary prec emax (Z.pos a) 0 (Z.pos b) 0 = (q, e, l) /\
    located q l y /\
    y * pow2 e == inject_Z (Z.pos a) / inject_Z (Z.pos b) /\
    (emin prec emax <= round_exp q e <= -52)%Z.
Proof.
  intros Hab. unfold SFdiv_core_binary.
  set (d1 := Zdigits2 (Z.pos a)). set (d2 := Zdigits2 (Z.pos b)).
  assert (d1 <= d2)%Z as Hd.
  { apply Zdigits2_le; [apply Zdigits2_nonneg|].
    pose proof (Zdigits2_upper (Z.pos b) ltac:(lia)). fold d2 in H. lia. }
  set (e := Z.min (fexp prec emax (d1 + 0 - (d2 + 0))) (0 - 0)).
  assert (emin prec emax <= e <= -53)%Z as He
    by (unfold e, fexp, emin, prec, emax; lia).
  set (s := (0 - 0 - e)%Z).
  assert (0 < s)%Z as Hs by (unfold s; lia).
  assert (match s with
          | 0%Z => Z.pos a
          | Z.pos _ => Z.shiftl (Z.pos a) s
          | Z.neg _ => 0%Z
          end = Z.pos a * 2 ^ s)%Z as ->.
  { destruct s eqn:Es; try lia. rewrite <- Es, Z.shiftl_mul_pow2; lia. }
  pose proof (Z_div_mod (Z.pos a * 2 ^ s) (Z.pos b) ltac:(lia)) as Hdm.
  destruct (Z.div_eucl (Z.pos a * 2 ^ s) (Z.pos b)) as [q r].
  destruct Hdm as [Hdm Hr].
  assert (0 < 2 ^ s)%Z as Hp by (apply Z.pow_pos_nonneg; lia).
  assert (0 <= q <= 2 ^ s)%Z as Hq by nia.
  exists q, e, (new_location (Z.pos b) r),
    (inject_Z (Z.pos a * 2 ^ s) / inject_Z (Z.pos b)).
  assert (0 < inject_Z (Z.pos b)) as HB by (now rewrite <- (Zlt_Qlt 0)).
  split; [reflexivity|]. split; [|split].
  - apply new_location_located; try lia.
    rewrite Hdm, (Z.mul_comm (Z.pos b) q). field. lra.
  - rewrite inject_Z_mult, <- pow2_nonneg_Z by lia.
    assert (pow2 s * pow2 e == 1) as Hse.
    { rewrite <- pow2_add. now replace (s + e)%Z with 0%Z by (unfold s; lia). }
    set (A := inject_Z (Z.pos a)) in *. set (B := inject_Z (Z.pos b)) in *.
    transitivity (A / B * (pow2 s * pow2 e)); [field; lra|].
    rewrite Hse. ring.
  - assert (Zdigits2 q <= s + 1)%Z as Hdq.
    { apply Zdigits2_le; [lia|]. rewrite Z.pow_add_r by lia. lia. }
    unfold round_exp, fexp, emin, prec, emax in *. unfold s in Hdq. lia.
Qed.

(** [c / n] in binary64, for a count [0 <= c <= n]: the division returns a
    finite non-negative float of exponent at most -51, within [2^-53] of
    the exact quotient. *)
Lemma int_truediv_accuracy (c n : Z) :
  (0 <= c <= n)%Z -> (0 < n)%Z ->
  exists m e,
    int_truediv c n = Ok (mk_float false m e) /\
    (0 <= m)%Z /\ (e <= -51)%Z /\
    Qabs (inject_Z m * pow2 e - inject_Z c / inject_Z n) <= pow2 (-53).
Proof.
  intros Hc Hn. unfold int_truediv.
  destruct (Z.eqb_spec n 0) as [->|_]; [lia|].
  destruct n as [|b|b]; try lia.
  destruct c as [|a|a]; try lia.
  - exists 0%Z, (-51)%Z. cbn [of_int_exact SFdiv xorb mk_float].
    repeat split; try lia.
    assert (inject_Z 0 * pow2 (-51) - inject_Z 0 / inject_Z (Z.pos b) == 0) as ->
      by (unfold inject_Z at 1 2; field; discriminate).
    discriminate.
  - destruct (SFdiv_core_int a b ltac:(lia)) as (q & e & l & y & Hcore & Hloc & Hy & HE).
    cbn [of_int_exact SFdiv xorb]. rewrite Hcore.
    destruct (binary_round_aux_spec false q e l y Hloc) as (m & e' & Hr & Hm & He' & Herr).
    { unfold emax, prec. lia. }
    exists m, e'. rewrite Hr. repeat split; try lia.
    + now destruct m.
    + rewrite <- Hy. eapply Qle_trans; [exact Herr|]. apply pow2_le. lia.
Qed.

(** *** Multiplication by 100 *)

Lemma of_int_100 : of_int 100 = float_100.
Proof. reflexivity. Qed.

Lemma to_Q_float_100 : to_Q float_100 == 100.
Proof. unfold Qeq. reflexivity. Qed.

(** [x * 100] in binary64, for a non-negative [x] below 1.28 of non-positive
    exponent: a finite non-negative float within [2^-47] of the exact
    product. *)
Lemma mul_100_accuracy (m e : Z) :
  (0 <= m)%Z -> (e <= 0)%Z ->
  inject_Z m * pow2 e < 128 # 100 ->
  exists m' e',
    mul (mk_float false m e) (of_int 100) = mk_float false m' e' /\
    (0 <= m')%Z /\
    Qabs (inject_Z m' * pow2 e' - 100 * (inject_Z m * pow2 e)) <= pow2 (-47).
Proof.
  intros Hm He Hx. rewrite of_int_100. unfold float_100.
  destruct m as [|p|p]; try lia.
  - exists 0%Z, 0%Z. cbn [mk_float mul SFmul xorb]. repeat split; try lia.
    assert (inject_Z 0 * pow2 0 - 100 * (inject_Z 0 * pow2 e) == 0) as ->
      by (unfold inject_Z; ring).
    discriminate.
  - cbn [mk_float mul SFmul xorb].
    set (M := 7036874417766400%positive).
    assert (located (Z.pos (p * M)) loc_Exact (inject_Z (Z.pos (p * M)))) as Hloc
      by (split; [lia | reflexivity]).
    assert (inject_Z (Z.pos M) * pow2 (-46) == 100) as HM
      by (unfold Qeq; reflexivity).
    assert (inject_Z (Z.pos (p * M)) * pow2 (e + -46)
            == 100 * (inject_Z (Z.pos p) * pow2 e)) as Hval.
    { rewrite Pos2Z.inj_mul, inject_Z_mult, pow2_add, <- HM. ring. }
    assert (Z.pos (p * M) < 2 ^ (53 - e))%Z as Hlt.
    { apply pow2_lt_Z; [lia|].
      replace (53 - e)%Z with (53 + 46 + (- e + -46))%Z by ring.
      rewrite pow2_add.
      assert (pow2 (e + -46) * pow2 (- e + -46 + 92) == 1) as Hinv.
      { rewrite <- pow2_add.
        now replace (e + -46 + (- e + -46 + 92))%Z with 0%Z by ring. }
      assert (pow2 (- e + -46 + 92) == pow2 (- e + -46) * pow2 92) as Hsplit
        by apply pow2_add.
      assert (pow2 (53 + 46) == 128 * pow2 92) as H99 by (unfold Qeq; reflexivity).
      assert (0 < pow2 92) as H92 by apply pow2_pos.
      pose proof (pow2_pos (e + -46)) as Hp1.
      pose proof (pow2_pos (- e + -46)) as Hp2.
      rewrite H99. rewrite Hsplit in Hinv.
      set (P := inject_Z (Z.pos (p * M))) in *.
      set (X := inject_Z (Z.pos p) * pow2 e) in *.
      set (u := pow2 (e + -46)) in *. set (v := pow2 (- e + -46)) in *.
      set (w := pow2 92) in *.
      assert (P * u < 128) as H1 by lra.
      assert (P == P * u * (v * w)) as -> by (rewrite <- Qmult_assoc, Hinv; ring).
      assert (0 < v * w) as Hvw by nra.
      set (t := v * w) in *.
      assert (P * u * t < 128 * t) as H2 by nra.
      unfold t in *. lra. }
    pose proof (Zdigits2_le (Z.pos (p * M)) (53 - e) ltac:(lia) ltac:(lia)) as Hd.
    assert (emin prec emax <= round_exp (Z.pos (p * M)) (e + -46) <= -46)%Z as HE
      by (unfold round_exp, fexp, emin, prec, emax in *; lia).
    destruct (binary_round_aux_spec false _ (e + -46)%Z _ _ Hloc)
      as (m' & e' & Hr & Hm' & He' & Herr).
    { unfold emax, prec. lia. }
    exists m', e'. rewrite Hr. repeat split; try lia.
    rewrite <- Hval. eapply Qle_trans; [exact Herr|]. apply pow2_le. lia.
Qed.

End FloatFacts.

(** ** Percentages *)

Lemma set_absent {V : Type} (k : Z) (v : V) (d : dict V) :
  ~ In k (keys d) -> set k v d = d ++ [(k, v)].
Proof.
  induction d as [|[k' v'] d IH]; simpl; [reflexivity|].
  intros H. destruct (k' =? k) eqn:E.
  - apply Z.eqb_eq in E. tauto.
  - f_equal. apply IH. tauto.
Qed.

Lemma In_get {V : Type} (k : Z) (v : V) (d : dict V) :
  dict_wf d -> In (k, v) d -> get k d = Some v.
Proof.
  unfold dict_wf. induction d as [|[k' v'] d IH]; simpl; [tauto|].
  intros Hnd [E|Hin].
  - injection E as -> ->. now rewrite Z.eqb_refl.
  - inversion Hnd as [|? ? Hk Hnd']; subst.
    destruct (Z.eqb_spec k' k) as [->|_]; [|auto].
    exfalso. apply Hk. change k with (fst (k, v)). now apply in_map.
Qed.

Lemma get_In_item {V : Type} (k : Z) (v : V) (d : dict V) :
  get k d = Some v -> In (k, v) d.
Proof.
  induction d as [|[k' v'] d IH]; simpl; [discriminate|].
  destruct (Z.eqb_spec k' k) as [->|_]; intros H.
  - injection H as ->. now left.
  - right. auto.
Qed.

Section PercentageFacts.

Variable A : arith.
Variable total_rolls : Z.

(** On a well-formed dictionary every assignment of the loop appends, so the
    loop is the item-by-item traversal. *)
Lemma for_each_percentage_step (d : dict Z) :
  forall acc : dict (num A),
    NoDup (keys acc ++ keys d) ->
    for_each (percentage_step A total_rolls) d acc =
    (r <- map_result (percentage_of A total_rolls) d ;; Ok (acc ++ r)).
Proof.
  induction d as [|[k c] d IH]; intros acc Hnd; cbn [for_each map_result bind].
  - now rewrite app_nil_r.
  - unfold percentage_step, percentage_of at 1. cbn [fst snd].
    destruct (truediv A c total_rolls) as [q|e]; cbn [bind]; [|reflexivity].
    assert (~ In k (keys acc)) as Hk.
    { cbn [keys map fst] in Hnd. apply NoDup_remove_2 in Hnd.
      intros Hin. apply Hnd, in_or_app. now left. }
    rewrite set_absent by assumption.
    rewrite IH.
    + destruct (map_result (percentage_of A total_rolls) d) as [r|e]; cbn [bind];
        [|reflexivity].
      now rewrite <- app_assoc.
    + unfold keys in *. rewrite map_app, <- app_assoc. exact Hnd.
Qed.

Lemma calculate_percentages_in_map (d : dict Z) :
  dict_wf d ->
  calculate_percentages_in A d total_rolls =
  map_result (percentage_of A total_rolls) d.
Proof.
  intros Hwf. unfold calculate_percentages_in, items.
  rewrite for_each_percentage_step by exact Hwf.
  now destruct (map_result (percentage_of A total_rolls) d).
Qed.

Lemma map_result_percentage_keys (d : dict Z) :
  forall r, map_result (percentage_of A total_rolls) d = Ok r -> keys r = keys d.
Proof.
  induction d as [|[k c] d IH]; intros r; cbn [map_result].
  - intros H. now injection H as <-.
  - unfold percentage_of at 1. cbn [fst snd].
    destruct (truediv A c total_rolls) as [q|e]; cbn [bind]; [|discriminate].
    destruct (map_result (percentage_of A total_rolls) d) as [r'|e]; cbn [bind];
      [|discriminate].
    intros H. injection H as <-. cbn. f_equal. now apply IH.
Qed.

(** The value stored under a key is computed from the count under that key. *)
Lemma map_result_percentage_get (d : dict Z) :
  forall r k c,
    map_result (percentage_of A total_rolls) d = Ok r ->
    get k d = Some c ->
    exists q, truediv A c total_rolls = Ok q /\
              get k r = Some (mul_int A q 100).
Proof.
  induction d as [|[k' c'] d IH]; intros r k c; cbn [map_result get].
  - discriminate.
  - unfold percentage_of at 1. cbn [fst snd].
    destruct (truediv A c' total_rolls) as [q|e] eqn:Hq; cbn [bind]; [|discriminate].
    destruct (map_result (percentage_of A total_rolls) d) as [r'|e]; cbn [bind];
      [|discriminate].
    intros H. injection H as <-. cbn [get].
    destruct (k' =? k).
    + intros H. injection H as <-. eauto.
    + now apply IH.
Qed.

End PercentageFacts.

(** *** Binary64 *)

Module Binary64Facts.

Import Float FloatFacts.

Local Open Scope Q_scope.

(** One percentage: finite, and within [2^-45] of [100 * c / n]. *)
Lemma percentage_accuracy (c n : Z) :
  (0 <= c <= n)%Z -> (0 < n)%Z ->
  exists q,
    truediv binary64 c n = Ok q /\
    is_finite (mul_int binary64 q 100) = true /\
    Qabs (to_Q (mul_int binary64 q 100) - 100 * (inject_Z c / inject_Z n))
    <= pow2 (-45).
Proof.
  intros Hc Hn. cbn [truediv mul_int binary64].
  destruct (int_truediv_accuracy c n Hc Hn) as (m & e & Hq & Hm & He & Herr).
  assert (0 < inject_Z n) as HN by (now rewrite <- (Zlt_Qlt 0)).
  assert (0 <= inject_Z c / inject_Z n <= 1) as Hratio.
  { destruct Hc as [Hc0 Hc1]. rewrite Zle_Qle in Hc0, Hc1.
    change (inject_Z 0) with 0 in Hc0. split.
    - apply Qle_shift_div_l; lra.
    - apply Qle_shift_div_r; lra. }
  set (x := inject_Z m * pow2 e) in *. set (t := inject_Z c / inject_Z n) in *.
  assert (pow2 (-53) <= 1 # 100) as Hsmall by (unfold Qle; vm_compute; discriminate).
  apply Qabs_diff_Qle_condition in Herr.
  destruct (mul_100_accuracy m e Hm ltac:(lia)) as (m' & e' & Hp & Hm' & Herr').
  { fold x. lra. }
  fold x in Herr'.
  exists (mk_float false m e). split; [exact Hq|]. rewrite Hp. split.
  - now apply mk_float_is_finite.
  - rewrite to_Q_mk_float by assumption.
    apply Qabs_diff_Qle_condition in Herr'.
    assert (pow2 (-47) + 100 * pow2 (-53) <= pow2 (-45)) as Hc45
      by (unfold Qle; vm_compute; discriminate).
    set (p := inject_Z m' * pow2 e') in *.
    apply Qabs_diff_Qle_condition. lra.
Qed.

(** The whole table, for counts between 0 and the total. *)
Lemma table_accuracy (n : Z) (d : dict Z) :
  (0 < n)%Z ->
  Forall (fun c => 0 <= c <= n)%Z (values d) ->
  exists r,
    map_result (percentage_of binary64 n) d = Ok r /\
    Forall (fun p => is_finite p = true) (values r) /\
    Qabs (Qsum (map to_Q (values r))
          - 100 * (inject_Z (py_sum (values d)) / inject_Z n))
    <= inject_Z (Z.of_nat (length d)) * pow2 (-45).
Proof.
  intros Hn. assert (0 < inject_Z n) as HN by (now rewrite <- (Zlt_Qlt 0)).
  induction d as [|[k c] d IH]; intros Hall.
  - exists []. split; [reflexivity|]. split; [constructor|].
    cbn [values map Qsum fold_right length].
    assert (inject_Z 0 / inject_Z n == 0) as E by (unfold inject_Z at 1; field; lra).
    change (py_sum []) with 0%Z. rewrite E.
    change (inject_Z (Z.of_nat 0)) with 0.
    apply Qabs_Qle_condition. set (eps := pow2 (-45)). lra.
  - cbn [values map snd] in Hall. inversion Hall as [|? ? Hc Hall']; subst.
    destruct (IH Hall') as (r & Hr & Hfin & Herr).
    destruct (percentage_accuracy c n Hc Hn) as (q & Hq & Hfq & Herrq).
    exists ((k, mul_int binary64 q 100) :: r).
    cbn [map_result]. unfold percentage_of at 1. cbn [fst snd].
    rewrite Hq. cbn [bind]. rewrite Hr. cbn [bind].
    split; [reflexivity|]. split; [constructor; assumption|].
    cbn [values map snd Qsum fold_right length].
    change (fold_right Qplus 0 (map to_Q (map snd r)))
      with (Qsum (map to_Q (values r))).
    change (map snd d) with (values d).
    rewrite py_sum_cons, inject_Z_plus, Nat2Z.inj_succ.
    unfold Z.succ. rewrite inject_Z_plus. change (inject_Z 1) with 1.
    assert ((inject_Z c + inject_Z (py_sum (values d))) / inject_Z n
            == inject_Z c / inject_Z n + inject_Z (py_sum (values d)) / inject_Z n)
      as -> by (field; lra).
    apply Qabs_diff_Qle_condition in Herr, Herrq.
    apply Qabs_diff_Qle_condition.
    set (a := to_Q (mul_int binary64 q 100)) in *.
    set (b := Qsum (map to_Q (values r))) in *.
    set (u := inject_Z c / inject_Z n) in *.
    set (v := inject_Z (py_sum (values d)) / inject_Z n) in *.
    set (L := inject_Z (Z.of_nat (length d))) in *.
    set (eps := pow2 (-45)) in *.
    lra.
Qed.

End Binary64Facts.

(** *** Exact arithmetic *)

Module ExactFacts.

Local Open Scope Q_scope.

Lemma exact_table (n : Z) (d : dict Z) :
  n <> 0%Z ->
  exists r,
    map_result (percentage_of exact n) d = Ok r /\
    Qsum (values r) == 100 * (inject_Z (py_sum (values d)) / inject_Z n).
Proof.
  intros Hn.
  assert (~ inject_Z n == 0) as HN.
  { intros E. apply Hn. now apply (proj1 (inject_Z_injective n 0)). }
  induction d as [|[k c] d IH].
  - exists []. split; [reflexivity|]. cbn.
    change (py_sum []) with 0%Z. unfold inject_Z at 1. field. exact HN.
  - destruct IH as (r & Hr & Hsum).
    exists ((k, (inject_Z c / inject_Z n) * inject_Z 100) :: r).
    cbn [map_result]. unfold percentage_of at 1. cbn [fst snd truediv mul_int exact].
    destruct (Z.eqb_spec n 0) as [E|_]; [contradiction|].
    cbn [bind]. rewrite Hr. cbn [bind]. split; [reflexivity|].
    cbn [values map snd Qsum fold_right].
    change (fold_right Qplus 0 (map snd r)) with (Qsum (values r)).
    change (map snd d) with (values d).
    rewrite Hsum, py_sum_cons, inject_Z_plus. change (inject_Z 100) with 100.
    field. exact HN.
Qed.

End ExactFacts.

(** ** The generator used to run the model meets the contract *)

Lemma lcg_randint_contract : randint_contract Lcg.randint.
Proof.
  intros a b g Hab. unfold Lcg.randint. cbn [fst].
  pose proof (Z.mod_pos_bound (Lcg.next g / 65536) (b - a + 1) ltac:(lia)).
  lia.
Qed.

(** ** Counts and percentages of a run *)

Lemma zero_counts_wf : dict_wf zero_counts.
Proof.
  unfold dict_wf. cbn.
  repeat (constructor; [cbn; intuition discriminate|]). constructor.
Qed.

Lemma py_sum_bound (xs : list Z) :
  Forall (fun x => 0 <= x) xs -> Forall (fun x => 0 <= x <= py_sum xs) xs.
Proof.
  induction xs as [|x xs IH]; intros H; [constructor|].
  inversion H as [|? ? Hx Hxs]; subst. specialize (IH Hxs).
  assert (0 <= py_sum xs) as Hs.
  { clear IH H. induction Hxs as [|y ys Hy _ IHys]; [reflexivity|].
    rewrite py_sum_cons. lia. }
  rewrite py_sum_cons. constructor; [lia|].
  eapply Forall_impl; [|exact IH]. cbn. intros; lia.
Qed.

Section RunFacts.

Variable rng : Type.
Variable randint : Z -> Z -> rng -> Z * rng.
Hypothesis randint_range : randint_contract randint.

(** What a run returns: the eleven buckets in order, the tallies of the sums
    drawn, each between 0 and the number of rolls, adding up to it. *)
Lemma simulate_dice_rolls_counts (num_rolls : Z) (g : rng) :
  exists counts g',
    simulate_dice_rolls randint num_rolls g = Ok (counts, g') /\
    keys counts = keys zero_counts /\
    dict_wf counts /\
    py_sum (values counts) = Z.max 0 num_rolls /\
    Forall (fun c => 0 <= c <= Z.max 0 num_rolls) (values counts) /\
    forall k, 2 <= k <= 12 ->
              get k counts =
              Some (tally (trial_sums randint (Z.to_nat num_rolls) g) k).
Proof.
  destruct (simulate_dice_rolls_spec rng randint randint_range num_rolls g)
    as (counts & g' & Hrun & Hk & Hsum & Hget).
  assert (dict_wf counts) as Hwf
    by (unfold dict_wf; rewrite Hk; apply zero_counts_wf).
  exists counts, g'. repeat split; auto; try lia.
  rewrite <- Hsum. apply py_sum_bound.
  apply Forall_forall. intros v Hv. unfold values in Hv.
  apply in_map_iff in Hv as [[k v'] [E Hin]]. cbn in E. subst v'.
  assert (In k (keys counts)) as Hkin
    by (change k with (fst (k, v)); now apply in_map).
  rewrite Hk in Hkin. apply bucket_range in Hkin.
  specialize (Hget k Hkin). rewrite (In_get k v counts Hwf Hin) in Hget.
  injection Hget as ->. apply tally_nonneg.
Qed.

End RunFacts.

(** * The claims *)

(** C1.  For every [num_rolls > 0], [simulate_dice_rolls] returns a mapping
    with eleven buckets whose values add up to [num_rolls]: every pass of
    the loop increments exactly one bucket. *)
Theorem simulate_counts_sum
  (rng : Type) (randint : Z -> Z -> rng -> Z * rng) (num_rolls : Z) (g : rng) :
  randint_contract randint ->
  0 < num_rolls ->
  exists counts g',
    simulate_dice_rolls randint num_rolls g = Ok (counts, g') /\
    length (values counts) = 11%nat /\
    py_sum (values counts) = num_rolls.
Proof.
  intros Hrand Hpos.
  destruct (simulate_dice_rolls_counts rng randint Hrand num_rolls g)
    as (counts & g' & Hrun & Hk & _ & Hsum & _).
  exists counts, g'. split; [exact Hrun|]. split; [|lia].
  unfold values. rewrite length_map.
  rewrite <- (length_map fst counts). fold (keys counts). now rewrite Hk.
Qed.

Lemma simulate_counts_sum_witness :
  randint_contract Lcg.randint /\ 0 < 20 /\
  exists counts g',
    simulate_dice_rolls Lcg.randint 20 1 = Ok (counts, g') /\
    length (values counts) = 11%nat /\
    py_sum (values counts) = 20.
Proof.
  split; [exact lcg_randint_contract|]. split; [lia|].
  apply (simulate_counts_sum Lcg.rng Lcg.randint 20 1 lcg_randint_contract).
  lia.
Defined.

(** C2, as stated, fails: [simulate_dice_rolls(0)] raises nothing; the loop
    body is never entered and the all-zero mapping is returned. *)
Lemma simulate_zero_rolls_returns :
  simulate_dice_rolls Lcg.randint 0 1 = Ok (zero_counts, 1) /\
  ~ exists e, simulate_dice_rolls Lcg.randint 0 1 = Raise e.
Proof.
  split; [reflexivity|]. intros [e H]. discriminate H.
Qed.

(** C2, amended.  For every [num_rolls <= 0], [simulate_dice_rolls] draws
    nothing and returns the mapping of the eleven buckets 2..12 to 0; it
    does not validate its argument. *)
Theorem simulate_nonpositive
  (rng : Type) (randint : Z -> Z -> rng -> Z * rng) (num_rolls : Z) (g : rng) :
  num_rolls <= 0 ->
  simulate_dice_rolls randint num_rolls g = Ok (zero_counts, g).
Proof.
  intros Hle. unfold simulate_dice_rolls.
  replace (Z.to_nat num_rolls) with 0%nat by lia.
  reflexivity.
Qed.

Lemma simulate_nonpositive_witness :
  -3 <= 0 /\ simulate_dice_rolls Lcg.randint (-3) 1 = Ok (zero_counts, 1).
Proof.
  split; [lia|]. apply (simulate_nonpositive Lcg.rng Lcg.randint (-3) 1). lia.
Defined.

(** C3.  For every counts mapping with at least one key,
    [calculate_percentages] with a total of 0 raises [ZeroDivisionError],
    at the division for the first item. *)
Theorem calculate_percentages_zero_total (roll_counts : dict Z) :
  roll_counts <> [] ->
  calculate_percentages roll_counts 0 = Raise ZeroDivisionError.
Proof.
  destruct roll_counts as [|[k c] d]; [congruence|]. intros _. reflexivity.
Qed.

Lemma calculate_percentages_zero_total_witness :
  zero_counts <> [] /\
  calculate_percentages zero_counts 0 = Raise ZeroDivisionError.
Proof.
  split; [discriminate|].
  apply (calculate_percentages_zero_total zero_counts). discriminate.
Defined.

(** The counts of a run go through [calculate_percentages]: every bucket has
    a finite percentage, and the percentages add up to 100 within
    [11 * 2^-45]. *)
Lemma run_percentages
  (rng : Type) (randint : Z -> Z -> rng -> Z * rng) (num_rolls : Z) (g : rng) :
  randint_contract randint ->
  0 < num_rolls ->
  exists counts g' percentages,
    simulate_dice_rolls randint num_rolls g = Ok (counts, g') /\
    keys counts = keys zero_counts /\
    dict_wf counts /\
    py_sum (values counts) = num_rolls /\
    calculate_percentages counts num_rolls = Ok percentages /\
    map_result (percentage_of binary64 num_rolls) counts = Ok percentages /\
    keys percentages = keys zero_counts /\
    Forall (fun p => Float.is_finite p = true) (values percentages) /\
    (Qabs (Qsum (map Float.to_Q (values percentages)) - 100)
     <= 11 * Float.pow2 (-45))%Q.
Proof.
  intros Hrand Hpos.
  destruct (simulate_dice_rolls_counts rng randint Hrand num_rolls g)
    as (counts & g' & Hrun & Hk & Hwf & Hsum & Hbound & _).
  replace (Z.max 0 num_rolls) with num_rolls in * by lia.
  destruct (Binary64Facts.table_accuracy num_rolls counts Hpos Hbound)
    as (r & Hr & Hfin & Herr).
  exists counts, g', r. repeat (split; [assumption|]).
  split; [|split; [exact Hr|split; [|split; [exact Hfin|]]]].
  - unfold calculate_percentages. now rewrite calculate_percentages_in_map.
  - transitivity (keys counts); [|exact Hk].
    exact (map_result_percentage_keys _ _ _ _ Hr).
  - rewrite Hsum in Herr.
    assert (length counts = 11%nat) as Hlen.
    { rewrite <- (length_map fst counts). fold (keys counts). now rewrite Hk. }
    rewrite Hlen in Herr. change (inject_Z (Z.of_nat 11)) with 11%Q in Herr.
    assert (100 * (inject_Z num_rolls / inject_Z num_rolls) == 100)%Q as E.
    { field. intros E. apply (proj1 (inject_Z_injective num_rolls 0)) in E. lia. }
    rewrite E in Herr. exact Herr.
Qed.

Lemma zero_percentage (n : Z) :
  0 < n ->
  truediv binary64 0 n = Ok float_0 /\ mul_int binary64 float_0 100 = float_0.
Proof. destruct n; try lia. intros _. split; reflexivity. Qed.

(** C4.  For every [num_rolls > 0], each key 2..12 is present in the counts
    returned by [simulate_dice_rolls] and in the percentages that
    [calculate_percentages] computes from them; a bucket whose count is 0 is
    present with percentage 0.0. *)
Theorem all_buckets_present
  (rng : Type) (randint : Z -> Z -> rng -> Z * rng) (num_rolls : Z) (g : rng) :
  randint_contract randint ->
  0 < num_rolls ->
  exists counts g' percentages,
    simulate_dice_rolls randint num_rolls g = Ok (counts, g') /\
    calculate_percentages counts num_rolls = Ok percentages /\
    keys counts = [2; 3; 4; 5; 6; 7; 8; 9; 10; 11; 12] /\
    keys percentages = [2; 3; 4; 5; 6; 7; 8; 9; 10; 11; 12] /\
    forall k, 2 <= k <= 12 ->
      exists c p,
        get k counts = Some c /\ get k percentages = Some p /\
        (c = 0 -> p = float_0).
Proof.
  intros Hrand Hpos.
  destruct (run_percentages rng randint num_rolls g Hrand Hpos)
    as (counts & g' & r & Hrun & Hk & Hwf & _ & Hcalc & Hmap & Hkr & _).
  exists counts, g', r. repeat (split; [assumption|]).
  intros k Hkb. apply bucket_cases in Hkb. rewrite <- Hk in Hkb.
  apply get_In in Hkb as [c Hc].
  destruct (map_result_percentage_get _ _ _ _ _ _ Hmap Hc) as (q & Hq & Hp).
  exists c, (mul_int binary64 q 100). repeat split; auto.
  intros ->. destruct (zero_percentage num_rolls Hpos) as [Hz Hm].
  rewrite Hz in Hq. injection Hq as <-. exact Hm.
Qed.

Lemma all_buckets_present_witness :
  randint_contract Lcg.randint /\ 0 < 3 /\
  exists counts g' percentages,
    simulate_dice_rolls Lcg.randint 3 1 = Ok (counts, g') /\
    calculate_percentages counts 3 = Ok percentages /\
    keys counts = [2; 3; 4; 5; 6; 7; 8; 9; 10; 11; 12] /\
    keys percentages = [2; 3; 4; 5; 6; 7; 8; 9; 10; 11; 12] /\
    forall k, 2 <= k <= 12 ->
      exists c p,
        get k counts = Some c /\ get k percentages = Some p /\
        (c = 0 -> p = float_0).
Proof.
  split; [exact lcg_randint_contract|]. split; [lia|].
  apply (all_buckets_present Lcg.rng Lcg.randint 3 1 lcg_randint_contract).
  lia.
Defined.

(** C5, as stated, fails in the arithmetic of the interpreter: for the count
    1 and the total 3, [calculate_percentages] stores
    [4691249611844266 * 2^-47] (33.33333333333333), which is neither the
    rational 100/3 nor the float of the expression [100 * 1 / 3]
    ([4691249611844267 * 2^-47], 33.333333333333336). *)
Lemma percentage_one_third_inexact :
  exists p,
    calculate_percentages [(2, 1)] 3 = Ok [(2, p)] /\
    p = S754_finite false 4691249611844266 (-47) /\
    ~ (Float.to_Q p == 100 * (inject_Z 1 / inject_Z 3))%Q /\
    Float.int_truediv (100 * 1) 3 = Ok (S754_finite false 4691249611844267 (-47)) /\
    Float.int_truediv (100 * 1) 3 <> Ok p.
Proof.
  exists (S754_finite false 4691249611844266 (-47)).
  split; [reflexivity|]. split; [reflexivity|]. split; [|split].
  - unfold Qeq. vm_compute. discriminate.
  - reflexivity.
  - vm_compute. discriminate.
Qed.

(** C5, amended.  For every counts mapping and every [total > 0],
    [calculate_percentages] maps each key [s] to [(counts[s] / total) * 100]:
    with exact rational arithmetic that is exactly [100 * counts[s] / total];
    in binary64 it is the correctly rounded quotient, multiplied by 100.0 and
    rounded again, which for [0 <= counts[s] <= total] is finite and within
    [2^-45] of [100 * counts[s] / total]. *)
Theorem percentage_formula (roll_counts : dict Z) (total_rolls : Z) :
  dict_wf roll_counts ->
  0 < total_rolls ->
  (exists r,
     calculate_percentages_exact roll_counts total_rolls = Ok r /\
     forall s c, get s roll_counts = Some c ->
       exists v, get s r = Some v /\
                 (v == 100 * (inject_Z c / inject_Z total_rolls))%Q) /\
  (forall r,
     calculate_percentages roll_counts total_rolls = Ok r ->
     forall s c, get s roll_counts = Some c ->
       exists q, Float.int_truediv c total_rolls = Ok q /\
                 get s r = Some (Float.mul q (Float.of_int 100))) /\
  (Forall (fun c => 0 <= c <= total_rolls) (values roll_counts) ->
   exists r,
     calculate_percentages roll_counts total_rolls = Ok r /\
     forall s c, get s roll_counts = Some c ->
       exists p, get s r = Some p /\ Float.is_finite p = true /\
                 (Qabs (Float.to_Q p - 100 * (inject_Z c / inject_Z total_rolls))
                  <= Float.pow2 (-45))%Q).
Proof.
  intros Hwf Hpos. split; [|split].
  - destruct (ExactFacts.exact_table total_rolls roll_counts ltac:(lia))
      as (r & Hr & _).
    exists r. split.
    + unfold calculate_percentages_exact. now rewrite calculate_percentages_in_map.
    + intros s c Hc.
      destruct (map_result_percentage_get exact _ _ _ _ _ Hr Hc) as (q & Hq & Hv).
      exists (mul_int exact q 100). split; [exact Hv|].
      cbn [truediv mul_int exact] in *.
      destruct (Z.eqb_spec total_rolls 0) as [E|_]; [lia|].
      injection Hq as <-. change (inject_Z 100) with 100%Q. ring.
  - intros r Hr s c Hc.
    unfold calculate_percentages in Hr.
    rewrite calculate_percentages_in_map in Hr by assumption.
    exact (map_result_percentage_get binary64 _ _ _ _ _ Hr Hc).
  - intros Hbound.
    destruct (Binary64Facts.table_accuracy total_rolls roll_counts Hpos Hbound)
      as (r & Hr & _).
    exists r. split.
    + unfold calculate_percentages. now rewrite calculate_percentages_in_map.
    + intros s c Hc.
      destruct (map_result_percentage_get binary64 _ _ _ _ _ Hr Hc) as (q & Hq & Hp).
      assert (0 <= c <= total_rolls) as Hcb.
      { rewrite Forall_forall in Hbound. apply Hbound.
        apply get_In_item in Hc. unfold values.
        change c with (snd (s, c)). now apply in_map. }
      destruct (Binary64Facts.percentage_accuracy c total_rolls Hcb Hpos)
        as (q' & Hq' & Hfin & Herr).
      rewrite Hq in Hq'. injection Hq' as <-.
      exists (mul_int binary64 q 100). auto.
Qed.

Lemma percentage_formula_witness :
  dict_wf [(2, 1); (7, 2)] /\ 0 < 3 /\
  (exists r,
     calculate_percentages_exact [(2, 1); (7, 2)] 3 = Ok r /\
     forall s c, get s [(2, 1); (7, 2)] = Some c ->
       exists v, get s r = Some v /\
                 (v == 100 * (inject_Z c / inject_Z 3))%Q) /\
  (forall r,
     calculate_percentages [(2, 1); (7, 2)] 3 = Ok r ->
     forall s c, get s [(2, 1); (7, 2)] = Some c ->
       exists q, Float.int_truediv c 3 = Ok q /\
                 get s r = Some (Float.mul q (Float.of_int 100))) /\
  (Forall (fun c => 0 <= c <= 3) (values [(2, 1); (7, 2)]) ->
   exists r,
     calculate_percentages [(2, 1); (7, 2)] 3 = Ok r /\
     forall s c, get s [(2, 1); (7, 2)] = Some c ->
       exists p, get s r = Some p /\ Float.is_finite p = true /\
                 (Qabs (Float.to_Q p - 100 * (inject_Z c / inject_Z 3))
                  <= Float.pow2 (-45))%Q).
Proof.
  assert (dict_wf [(2, 1); (7, 2)]) as Hwf.
  { unfold dict_wf. cbn.
    repeat (constructor; [cbn; intuition discriminate|]). constructor. }
  split; [exact Hwf|]. split; [lia|].
  apply (percentage_formula [(2, 1); (7, 2)] 3 Hwf). lia.
Defined.

(** C6.  Every sum of two draws lies between 2 and 12, so the increment
    [roll_counts[total_sum] += 1] finds its key: a pass of the loop never
    raises, and the run returns the tallies of the sums drawn. *)
Theorem dice_sums_in_range
  (rng : Type) (randint : Z -> Z -> rng -> Z * rng) (num_rolls : Z) (g : rng) :
  randint_contract randint ->
  Forall (fun s => 2 <= s <= 12) (trial_sums randint (Z.to_nat num_rolls) g) /\
  (forall roll_counts g0,
     keys roll_counts = keys zero_counts ->
     exists roll_counts' g1,
       roll_once randint (roll_counts, g0) = Ok (roll_counts', g1) /\
       keys roll_counts' = keys zero_counts) /\
  exists counts g',
    simulate_dice_rolls randint num_rolls g = Ok (counts, g') /\
    forall k, 2 <= k <= 12 ->
      get k counts = Some (tally (trial_sums randint (Z.to_nat num_rolls) g) k).
Proof.
  intros Hrand. split; [|split].
  - now apply trial_sums_range.
  - intros d g0 Hk.
    destruct (roll_loop_spec rng randint Hrand 1 d g0 Hk)
      as (d' & g1 & Hrun & Hk' & _).
    cbn [roll_loop] in Hrun.
    destruct (roll_once randint (d, g0)) as [[d1 g2]|e]; cbn [bind] in Hrun;
      [|discriminate].
    injection Hrun as -> ->. eauto.
  - destruct (simulate_dice_rolls_counts rng randint Hrand num_rolls g)
      as (counts & g' & Hrun & _ & _ & _ & _ & Hget).
    eauto.
Qed.

Lemma dice_sums_in_range_witness :
  randint_contract Lcg.randint /\
  Forall (fun s => 2 <= s <= 12) (trial_sums Lcg.randint (Z.to_nat 50) 1) /\
  (forall roll_counts g0,
     keys roll_counts = keys zero_counts ->
     exists roll_counts' g1,
       roll_once Lcg.randint (roll_counts, g0) = Ok (roll_counts', g1) /\
       keys roll_counts' = keys zero_counts) /\
  exists counts g',
    simulate_dice_rolls Lcg.randint 50 1 = Ok (counts, g') /\
    forall k, 2 <= k <= 12 ->
      get k counts = Some (tally (trial_sums Lcg.randint (Z.to_nat 50) 1) k).
Proof.
  split; [exact lcg_randint_contract|].
  exact (dice_sums_in_range Lcg.rng Lcg.randint 50 1 lcg_randint_contract).
Defined.

(** C7.  For the counts of a run of [num_rolls > 0] rolls, the percentages
    computed by [calculate_percentages] are finite binary64 values whose sum
    is within 0.01 of 100; computed with exact rational arithmetic they add
    up to exactly 100. *)
Theorem percentages_sum_to_100
  (rng : Type) (randint : Z -> Z -> rng -> Z * rng) (num_rolls : Z) (g : rng) :
  randint_contract randint ->
  0 < num_rolls ->
  exists counts g' percentages exact_percentages,
    simulate_dice_rolls randint num_rolls g = Ok (counts, g') /\
    calculate_percentages counts num_rolls = Ok percentages /\
    Forall (fun p => Float.is_finite p = true) (values percentages) /\
    (Qabs (Qsum (map Float.to_Q (values percentages)) - 100) <= 1 # 100)%Q /\
    calculate_percentages_exact counts num_rolls = Ok exact_percentages /\
    (Qsum (values exact_percentages) == 100)%Q.
Proof.
  intros Hrand Hpos.
  destruct (run_percentages rng randint num_rolls g Hrand Hpos)
    as (counts & g' & r & Hrun & Hk & Hwf & Hsum & Hcalc & _ & _ & Hfin & Herr).
  destruct (ExactFacts.exact_table num_rolls counts ltac:(lia)) as (rq & Hrq & Hq).
  exists counts, g', r, rq. repeat (split; [assumption|]).
  split; [|split].
  - eapply Qle_trans; [exact Herr|]. unfold Qle. vm_compute. discriminate.
  - unfold calculate_percentages_exact. now rewrite calculate_percentages_in_map.
  - rewrite Hq, Hsum. field.
    intros E. apply (proj1 (inject_Z_injective num_rolls 0)) in E. lia.
Qed.

Lemma percentages_sum_to_100_witness :
  randint_contract Lcg.randint /\ 0 < 7 /\
  exists counts g' percentages exact_percentages,
    simulate_dice_rolls Lcg.randint 7 1 = Ok (counts, g') /\
    calculate_percentages counts 7 = Ok percentages /\
    Forall (fun p => Float.is_finite p = true) (values percentages) /\
    (Qabs (Qsum (map Float.to_Q (values percentages)) - 100) <= 1 # 100)%Q /\
    calculate_percentages_exact counts 7 = Ok exact_percentages /\
    (Qsum (values exact_percentages) == 100)%Q.
Proof.
  split; [exact lcg_randint_contract|]. split; [lia|].
  apply (percentages_sum_to_100 Lcg.rng Lcg.randint 7 1 lcg_randint_contract).
  lia.
Defined.

(** The tables of a single roll of sum [s]. *)
Lemma single_roll_tables (s : Z) :
  2 <= s <= 12 ->
  getitem s zero_counts = Ok 0 /\
  keys (set s 1 zero_counts) = keys zero_counts /\
  calculate_percentages (set s (0 + 1) zero_counts) 1
  = Ok (set s float_100 zero_percentages) /\
  keys (set s float_100 zero_percentages) = keys zero_counts.
Proof.
  intros H.
  assert (s = 2 \/ s = 3 \/ s = 4 \/ s = 5 \/ s = 6 \/ s = 7 \/ s = 8 \/
          s = 9 \/ s = 10 \/ s = 11 \/ s = 12) as C by lia.
  repeat (destruct C as [->|C]; [repeat split; vm_compute; reflexivity|]).
  subst s. repeat split; vm_compute; reflexivity.
Qed.

(** C8.  A run of one roll returns a mapping with one bucket at 1 and the
    other ten at 0, and [calculate_percentages] with total 1 turns it into
    a mapping with that bucket at 100.0 and the other ten at 0.0. *)
Theorem single_roll
  (rng : Type) (randint : Z -> Z -> rng -> Z * rng) (g : rng) :
  randint_contract randint ->
  exists s counts g' percentages,
    2 <= s <= 12 /\
    simulate_dice_rolls randint 1 g = Ok (counts, g') /\
    keys counts = [2; 3; 4; 5; 6; 7; 8; 9; 10; 11; 12] /\
    (forall k, 2 <= k <= 12 ->
               get k counts = Some (if k =? s then 1 else 0)) /\
    calculate_percentages counts 1 = Ok percentages /\
    keys percentages = [2; 3; 4; 5; 6; 7; 8; 9; 10; 11; 12] /\
    (forall k, 2 <= k <= 12 ->
               get k percentages = Some (if k =? s then float_100 else float_0)).
Proof.
  intros Hrand. pose proof (two_dice_range rng randint Hrand g) as Hs.
  unfold simulate_dice_rolls. rewrite initial_counts_eq.
  change (Z.to_nat 1) with 1%nat. cbn [roll_loop]. unfold roll_once.
  destruct (randint 1 6 g) as [die1 g1]; cbn [fst snd] in Hs.
  destruct (randint 1 6 g1) as [die2 g2]; cbn [fst snd] in Hs.
  remember (die1 + die2) as s eqn:Es. clear Es.
  destruct (single_roll_tables s Hs) as (Hget & Hk & Hcalc & Hkp).
  rewrite Hget. cbn [bind].
  exists s, (set s (0 + 1) zero_counts), g2, (set s float_100 zero_percentages).
  split; [exact Hs|]. split; [reflexivity|]. split; [exact Hk|].
  split; [|split; [exact Hcalc|split; [exact Hkp|]]].
  - intros k Hkb. destruct (Z.eqb_spec k s) as [->|Hne].
    + apply get_set_same.
    + rewrite get_set_other by assumption.
      apply bucket_cases in Hkb. cbn in Hkb.
      repeat (destruct Hkb as [<-|Hkb]; [reflexivity|]). contradiction.
  - intros k Hkb. destruct (Z.eqb_spec k s) as [->|Hne].
    + apply get_set_same.
    + rewrite get_set_other by assumption.
      apply bucket_cases in Hkb. cbn in Hkb.
      repeat (destruct Hkb as [<-|Hkb]; [reflexivity|]). contradiction.
Qed.

Lemma single_roll_witness :
  randint_contract Lcg.randint /\
  exists s counts g' percentages,
    2 <= s <= 12 /\
    simulate_dice_rolls Lcg.randint 1 1 = Ok (counts, g') /\
    keys counts = [2; 3; 4; 5; 6; 7; 8; 9; 10; 11; 12] /\
    (forall k, 2 <= k <= 12 ->
               get k counts = Some (if k =? s then 1 else 0)) /\
    calculate_percentages counts 1 = Ok percentages /\
    keys percentages = [2; 3; 4; 5; 6; 7; 8; 9; 10; 11; 12] /\
    (forall k, 2 <= k <= 12 ->
               get k percentages = Some (if k =? s then float_100 else float_0)).
Proof.
  split; [exact lcg_randint_contract|].
  exact (single_roll Lcg.rng Lcg.randint 1 lcg_randint_contract).
Defined.

(** A table over the keys 2..12 in order is already sorted, and every bar of
    its chart is found. *)
Lemma presentation_of_buckets (percentages : dict Float.float) (num_rolls : Z) :
  keys percentages = keys zero_counts ->
  sorted_items percentages = percentages /\
  visualize_results percentages num_rolls
  = Ok [ShowBarChart (keys zero_counts) (values percentages) num_rolls].
Proof.
  intros Hk. unfold keys in Hk.
  do 11 (destruct percentages as [|[? ?] percentages]; [discriminate Hk|]).
  destruct percentages; [|discriminate Hk].
  cbn in Hk. injection Hk as -> -> -> -> -> -> -> -> -> -> ->.
  split; reflexivity.
Qed.

(** C9.  The roll count is the only parameter: [simulate_dice_rolls] called
    without an argument runs 10000 rolls, and [main], which takes none, runs
    the simulation with 10000 rolls, reports 10000 and hands the percentages
    of those 10000 rolls to the console and the chart. *)
Theorem default_roll_count
  (rng : Type) (randint : Z -> Z -> rng -> Z * rng) (g : rng) :
  randint_contract randint ->
  simulate_dice_rolls_default = 10000 /\
  call_simulate_dice_rolls randint None g = simulate_dice_rolls randint 10000 g /\
  exists counts g' percentages,
    simulate_dice_rolls randint 10000 g = Ok (counts, g') /\
    py_sum (values counts) = 10000 /\
    calculate_percentages counts 10000 = Ok percentages /\
    main randint g
    = Ok (PrintSimulating 10000 :: PrintResultsHeader
          :: map (fun '(total_sum, percentage) => PrintRoll total_sum percentage)
                 percentages
          ++ [ShowBarChart [2; 3; 4; 5; 6; 7; 8; 9; 10; 11; 12]
                           (values percentages) 10000],
          g').
Proof.
  intros Hrand. split; [reflexivity|]. split; [reflexivity|].
  destruct (run_percentages rng randint 10000 g Hrand ltac:(lia))
    as (counts & g' & r & Hrun & _ & _ & Hsum & Hcalc & _ & Hkr & _).
  destruct (presentation_of_buckets r 10000 Hkr) as [Hsorted Hchart].
  exists counts, g', r. repeat (split; [assumption|]).
  unfold main, call_simulate_dice_rolls.
  rewrite Hrun. cbn [bind]. rewrite Hcalc. cbn [bind].
  rewrite Hsorted, Hchart. reflexivity.
Qed.

Lemma default_roll_count_witness :
  randint_contract Lcg.randint /\
  simulate_dice_rolls_default = 10000 /\
  call_simulate_dice_rolls Lcg.randint None 7
  = simulate_dice_rolls Lcg.randint 10000 7 /\
  exists counts g' percentages,
    simulate_dice_rolls Lcg.randint 10000 7 = Ok (counts, g') /\
    py_sum (values counts) = 10000 /\
    calculate_percentages counts 10000 = Ok percentages /\
    main Lcg.randint 7
    = Ok (PrintSimulating 10000 :: PrintResultsHeader
          :: map (fun '(total_sum, percentage) => PrintRoll total_sum percentage)
                 percentages
          ++ [ShowBarChart [2; 3; 4; 5; 6; 7; 8; 9; 10; 11; 12]
                           (values percentages) 10000],
          g').
Proof.
  split; [exact lcg_randint_contract|].
  exact (default_roll_count Lcg.rng Lcg.randint 7 lcg_randint_contract).
Defined.

(** With a non-zero total the only exception left to the loop is the
    overflow of a quotient. *)
Lemma map_result_percentage_cases (total_rolls : Z) (d : dict Z) :
  total_rolls <> 0 ->
  (exists r, map_result (percentage_of binary64 total_rolls) d = Ok r) \/
  map_result (percentage_of binary64 total_rolls) d = Raise OverflowError.
Proof.
  intros Hne. induction d as [|[k c] d IH]; cbn [map_result]; [eauto|].
  unfold percentage_of at 1 3. cbn [fst snd truediv binary64].
  unfold Float.int_truediv.
  destruct (Z.eqb_spec total_rolls 0) as [E|_]; [contradiction|].
  destruct (SFdiv Float.prec Float.emax (Float.of_int_exact c)
              (Float.of_int_exact total_rolls)); cbn [bind]; auto;
    destruct IH as [[r ->]| ->]; cbn [bind]; eauto.
Qed.

(** C10.  For every counts mapping, whatever its keys, and every
    [total > 0], the mapping that [calculate_percentages] returns has the
    keys of the counts in the same order.  It returns unless a quotient
    overflows, in particular whenever no count exceeds the total; with exact
    arithmetic it always returns. *)
Theorem calculate_percentages_keys (roll_counts : dict Z) (total_rolls : Z) :
  dict_wf roll_counts ->
  0 < total_rolls ->
  (forall r, calculate_percentages roll_counts total_rolls = Ok r ->
             keys r = keys roll_counts /\ dict_wf r) /\
  ((exists r, calculate_percentages roll_counts total_rolls = Ok r) \/
   calculate_percentages roll_counts total_rolls = Raise OverflowError) /\
  (Forall (fun c => 0 <= c <= total_rolls) (values roll_counts) ->
   exists r, calculate_percentages roll_counts total_rolls = Ok r) /\
  (exists r, calculate_percentages_exact roll_counts total_rolls = Ok r /\
             keys r = keys roll_counts).
Proof.
  intros Hwf Hpos.
  unfold calculate_percentages, calculate_percentages_exact.
  rewrite !calculate_percentages_in_map by assumption.
  split; [|split; [|split]].
  - intros r Hr.
    pose proof (map_result_percentage_keys binary64 _ _ _ Hr) as Hk.
    split; [exact Hk|]. exact (eq_ind_r (@NoDup Z) Hwf Hk).
  - apply map_result_percentage_cases. lia.
  - intros Hbound.
    destruct (Binary64Facts.table_accuracy total_rolls roll_counts Hpos Hbound)
      as (r & Hr & _).
    eauto.
  - destruct (ExactFacts.exact_table total_rolls roll_counts ltac:(lia))
      as (r & Hr & _).
    exists r. split; [exact Hr|].
    exact (map_result_percentage_keys exact _ _ _ Hr).
Qed.

Lemma calculate_percentages_keys_witness :
  dict_wf [(40, 3); (7, 1); (-2, 0)] /\ 0 < 4 /\
  (forall r, calculate_percentages [(40, 3); (7, 1); (-2, 0)] 4 = Ok r ->
             keys r = keys [(40, 3); (7, 1); (-2, 0)] /\ dict_wf r) /\
  ((exists r, calculate_percentages [(40, 3); (7, 1); (-2, 0)] 4 = Ok r) \/
   calculate_percentages [(40, 3); (7, 1); (-2, 0)] 4 = Raise OverflowError) /\
  (Forall (fun c => 0 <= c <= 4) (values [(40, 3); (7, 1); (-2, 0)]) ->
   exists r, calculate_percentages [(40, 3); (7, 1); (-2, 0)] 4 = Ok r) /\
  (exists r, calculate_percentages_exact [(40, 3); (7, 1); (-2, 0)] 4 = Ok r /\
             keys r = keys [(40, 3); (7, 1); (-2, 0)]).
Proof.
  assert (dict_wf [(40, 3); (7, 1); (-2, 0)]) as Hwf.
  { unfold dict_wf. cbn.
    repeat (constructor; [cbn; intuition discriminate|]). constructor. }
  split; [exact Hwf|]. split; [lia|].
  apply (calculate_percentages_keys [(40, 3); (7, 1); (-2, 0)] 4 Hwf). lia.
Defined.

(** * Further properties of the code *)

(** ** Sorting for the report and the chart *)

Lemma insert_sorted_perm {V : Type} (kv : Z * V) (l : list (Z * V)) :
  Permutation (insert_sorted kv l) (kv :: l).
Proof.
  induction l as [|kv' l IH]; cbn [insert_sorted]; [reflexivity|].
  destruct (fst kv <=? fst kv'); [reflexivity|].
  rewrite IH. apply perm_swap.
Qed.

Lemma insert_sorted_keys_sorted {V : Type} (kv : Z * V) (l : list (Z * V)) :
  Sorted Z.le (map fst l) -> Sorted Z.le (map fst (insert_sorted kv l)).
Proof.
  induction l as [|kv' l IH]; cbn [insert_sorted map]; intros Hs.
  - repeat constructor.
  - destruct (Z.leb_spec (fst kv) (fst kv')) as [Hle|Hgt]; cbn [map].
    + constructor; [exact Hs|]. constructor. exact Hle.
    + apply Sorted_inv in Hs as [Hs Hhd].
      constructor; [now apply IH|].
      destruct l as [|kv'' l]; cbn [insert_sorted map].
      * constructor. lia.
      * destruct (fst kv <=? fst kv''); cbn [map]; constructor;
          [lia | now apply HdRel_inv in Hhd].
Qed.

Lemma sorted_items_perm {V : Type} (d : dict V) :
  Permutation (sorted_items d) (items d).
Proof.
  unfold sorted_items, items. induction d as [|kv d IH]; cbn [fold_right];
    [reflexivity|].
  rewrite insert_sorted_perm. now constructor.
Qed.

Lemma sorted_items_keys_sorted {V : Type} (d : dict V) :
  Sorted Z.le (map fst (sorted_items d)).
Proof.
  unfold sorted_items, items. induction d as [|kv d IH]; cbn [fold_right].
  - constructor.
  - now apply insert_sorted_keys_sorted.
Qed.

(** X1.  [sorted(percentages.items())], the order of the report of [main]:
    whatever the order of the dictionary, the rows come out by ascending
    key, are the items of the dictionary, each once, and over distinct keys
    the order is strict. *)
Theorem sorted_items_spec {V : Type} (d : dict V) :
  Sorted Z.le (map fst (sorted_items d)) /\
  Permutation (sorted_items d) (items d) /\
  (forall k v, In (k, v) (sorted_items d) <-> In (k, v) d) /\
  length (sorted_items d) = length d /\
  (dict_wf d -> StronglySorted Z.lt (map fst (sorted_items d))).
Proof.
  pose proof (sorted_items_keys_sorted d) as Hs.
  pose proof (sorted_items_perm d) as Hp. unfold items in Hp.
  split; [exact Hs|]. split; [exact Hp|]. split; [|split].
  - intros k v. split; intros H.
    + eapply Permutation_in; [exact Hp | exact H].
    + eapply Permutation_in; [symmetry; exact Hp | exact H].
  - now apply Permutation_length.
  - intros Hwf.
    assert (NoDup (map fst (sorted_items d))) as Hnd.
    { eapply Permutation_NoDup; [|exact Hwf].
      symmetry. now apply Permutation_map. }
    apply Sorted_StronglySorted in Hs; [|intros x y z; lia].
    revert Hs Hnd. generalize (map fst (sorted_items d)) as l.
    induction l as [|a l IH]; intros Hs Hnd; [constructor|].
    apply StronglySorted_inv in Hs as [Hs Hall].
    inversion Hnd as [|? ? Hnotin Hnd']; subst.
    constructor; [now apply IH|].
    rewrite Forall_forall in *. intros x Hx.
    specialize (Hall x Hx).
    assert (x <> a) by (intros ->; contradiction). lia.
Qed.

(** ** The chart *)

(** The comprehension [[percentages[s] for s in sums]] over keys of the
    dictionary finds every value. *)
Lemma bars_of_keys {V : Type} (d : dict V) (sums : list Z) :
  (forall s, In s sums -> In s (keys d)) ->
  forall acc,
    exists bars,
      for_each (fun s acc => v <- getitem s d ;; Ok (acc ++ [v])) sums acc
      = Ok (acc ++ bars) /\
      Forall2 (fun s v => get s d = Some v) sums bars.
Proof.
  induction sums as [|s sums IH]; intros Hin acc; cbn [for_each].
  - exists []. split; [now rewrite app_nil_r | constructor].
  - destruct (proj1 (get_In V s d) (Hin s (or_introl eq_refl))) as [v Hv].
    unfold getitem at 1. rewrite Hv. cbn [bind].
    destruct (IH (fun s' H => Hin s' (or_intror H)) (acc ++ [v])) as (bars & Hrun & Hall).
    exists (v :: bars). split.
    + rewrite Hrun, <- app_assoc. reflexivity.
    + now constructor.
Qed.

(** X2.  [visualize_results] never fails on a lookup, whatever the keys of
    the table and their order: it draws one chart, with the keys in
    ascending order on the x-axis, each key of the table once, the bar of a
    key being the value stored under it, and the given roll count in the
    title. *)
Theorem visualize_results_spec (percentages : dict Float.float) (num_rolls : Z) :
  exists sums bars,
    visualize_results percentages num_rolls = Ok [ShowBarChart sums bars num_rolls] /\
    Sorted Z.le sums /\
    Permutation sums (keys percentages) /\
    Forall2 (fun s v => get s percentages = Some v) sums bars.
Proof.
  assert (Permutation (sorted_keys percentages) (keys percentages)) as Hp.
  { unfold sorted_keys, keys. apply Permutation_map, sorted_items_perm. }
  destruct (bars_of_keys percentages (sorted_keys percentages)
              (fun s H => Permutation_in s Hp H) [])
    as (bars & Hrun & Hall).
  exists (sorted_keys percentages), bars.
  split; [|split; [apply sorted_items_keys_sorted|split; assumption]].
  unfold visualize_results. rewrite Hrun. reflexivity.
Qed.

(** ** More on the sampler *)

Section SamplerMore.

Variable rng : Type.
Variable randint : Z -> Z -> rng -> Z * rng.

(** Every pass draws twice: a loop of [n] passes that returns leaves the
    generator [2 * n] draws further. *)
Lemma roll_loop_advance (n : nat) :
  forall d g d' g',
    roll_loop randint n (d, g) = Ok (d', g') ->
    g' = advance randint (2 * n) g.
Proof.
  induction n as [|n IH]; intros d g d' g' H.
  - cbn in H. now injection H as _ <-.
  - replace (2 * S n)%nat with (S (S (2 * n))) by lia. cbn [advance].
    cbn [roll_loop] in H. unfold roll_once in H.
    destruct (randint 1 6 g) as [die1 g1]. cbn [snd].
    destruct (randint 1 6 g1) as [die2 g2]. cbn [snd].
    destruct (getitem (die1 + die2) d) as [c|e]; cbn [bind] in H; [|discriminate].
    now apply IH in H.
Qed.

Lemma trial_sums_app (a b : nat) :
  forall g,
    trial_sums randint (a + b) g
    = trial_sums randint a g ++ trial_sums randint b (advance randint (2 * a) g).
Proof.
  induction a as [|a IH]; intros g; [reflexivity|].
  replace (2 * S a)%nat with (S (S (2 * a))) by lia.
  cbn [Nat.add trial_sums advance].
  destruct (randint 1 6 g) as [die1 g1]. cbn [snd].
  destruct (randint 1 6 g1) as [die2 g2]. cbn [snd].
  now rewrite IH.
Qed.

End SamplerMore.

Lemma tally_app (xs ys : list Z) (k : Z) :
  tally (xs ++ ys) k = tally xs k + tally ys k.
Proof. unfold tally. rewrite count_occ_app. lia. Qed.

(** Two dictionaries with the same keys in the same order and the same
    value under every key are the same dictionary. *)
Lemma dict_ext {V : Type} (d1 : dict V) :
  forall d2,
    dict_wf d1 ->
    keys d1 = keys d2 ->
    (forall k, In k (keys d1) -> get k d1 = get k d2) ->
    d1 = d2.
Proof.
  unfold dict_wf, keys.
  induction d1 as [|[k v] d1 IH]; intros [|[k' v'] d2] Hwf Hk Hget;
    try discriminate; [reflexivity|].
  cbn in Hk. injection Hk as <- Hk.
  inversion Hwf as [|? ? Hnotin Hwf']; subst.
  pose proof (Hget k (or_introl eq_refl)) as Hv. cbn in Hv.
  rewrite Z.eqb_refl in Hv. injection Hv as <-.
  f_equal. apply IH; auto.
  intros k0 Hin. specialize (Hget k0 (or_intror Hin)). cbn in Hget.
  destruct (Z.eqb_spec k k0) as [->|_]; [contradiction | exact Hget].
Qed.

Lemma keys_add_counts (d1 d2 : dict Z) : keys (add_counts d1 d2) = keys d1.
Proof.
  unfold add_counts, keys. rewrite map_map. apply map_ext. now intros [k c].
Qed.

Lemma get_add_counts (d1 d2 : dict Z) (k c1 c2 : Z) :
  get k d1 = Some c1 -> get k d2 = Some c2 ->
  get k (add_counts d1 d2) = Some (c1 + c2).
Proof.
  intros H1 H2. induction d1 as [|[k' c'] d1 IH]; cbn in *; [discriminate|].
  destruct (Z.eqb_spec k' k) as [->|_].
  - injection H1 as ->. now rewrite H2.
  - now apply IH.
Qed.

(** X3.  The counts of a run are real counts: only the keys 2..12 occur,
    every value is between 0 and the number of rolls, and a key outside
    2..12 is absent.  This holds for every argument, a non-positive number
    of rolls counting as none. *)
Theorem simulate_counts_bounds
  (rng : Type) (randint : Z -> Z -> rng -> Z * rng) (num_rolls : Z) (g : rng) :
  randint_contract randint ->
  exists counts g',
    simulate_dice_rolls randint num_rolls g = Ok (counts, g') /\
    (forall k c, get k counts = Some c ->
                 2 <= k <= 12 /\ 0 <= c <= Z.max 0 num_rolls) /\
    (forall k, k < 2 \/ 12 < k -> get k counts = None).
Proof.
  intros Hrand.
  destruct (simulate_dice_rolls_counts rng randint Hrand num_rolls g)
    as (counts & g' & Hrun & Hk & Hwf & _ & Hbound & _).
  exists counts, g'. split; [exact Hrun|]. split.
  - intros k c Hc. pose proof (get_In_item k c counts Hc) as Hin. split.
    + apply bucket_range. rewrite <- Hk.
      change k with (fst (k, c)). now apply in_map.
    + rewrite Forall_forall in Hbound. apply Hbound.
      change c with (snd (k, c)). now apply in_map.
  - intros k Hout. apply get_None. rewrite Hk. intros Hin.
    apply bucket_range in Hin. lia.
Qed.

Lemma simulate_counts_bounds_witness :
  randint_contract Lcg.randint /\
  exists counts g',
    simulate_dice_rolls Lcg.randint 25 3 = Ok (counts, g') /\
    (forall k c, get k counts = Some c ->
                 2 <= k <= 12 /\ 0 <= c <= Z.max 0 25) /\
    (forall k, k < 2 \/ 12 < k -> get k counts = None).
Proof.
  split; [exact lcg_randint_contract|].
  exact (simulate_counts_bounds Lcg.rng Lcg.randint 25 3 lcg_randint_contract).
Defined.

(** X4.  A run draws exactly two numbers per roll, both from
    [randint(1, 6)]: the generator it leaves behind is the one reached after
    [2 * num_rolls] such draws, and none for a non-positive argument. *)
Theorem simulate_draws_two_per_roll
  (rng : Type) (randint : Z -> Z -> rng -> Z * rng) (num_rolls : Z) (g : rng) :
  randint_contract randint ->
  exists counts,
    simulate_dice_rolls randint num_rolls g
    = Ok (counts, advance randint (2 * Z.to_nat num_rolls) g).
Proof.
  intros Hrand.
  destruct (simulate_dice_rolls_counts rng randint Hrand num_rolls g)
    as (counts & g' & Hrun & _).
  exists counts. rewrite Hrun. do 2 f_equal.
  unfold simulate_dice_rolls in Hrun.
  exact (roll_loop_advance rng randint _ _ _ _ _ Hrun).
Qed.

Lemma simulate_draws_two_per_roll_witness :
  randint_contract Lcg.randint /\
  exists counts,
    simulate_dice_rolls Lcg.randint 4 1
    = Ok (counts, advance Lcg.randint (2 * Z.to_nat 4) 1).
Proof.
  split; [exact lcg_randint_contract|].
  exact (simulate_draws_two_per_roll Lcg.rng Lcg.randint 4 1 lcg_randint_contract).
Defined.

(** X5.  Runs compose: a run of [m + n] rolls returns, bucket by bucket, the
    sum of the counts of a run of [m] rolls and of a run of [n] rolls that
    starts from the generator the first one leaves, and it leaves the
    generator of the second. *)
Theorem simulate_splits
  (rng : Type) (randint : Z -> Z -> rng -> Z * rng) (m n : Z) (g : rng) :
  randint_contract randint ->
  0 <= m -> 0 <= n ->
  exists counts_m g_m counts_n g_n,
    simulate_dice_rolls randint m g = Ok (counts_m, g_m) /\
    simulate_dice_rolls randint n g_m = Ok (counts_n, g_n) /\
    simulate_dice_rolls randint (m + n) g = Ok (add_counts counts_m counts_n, g_n).
Proof.
  intros Hrand Hm Hn.
  destruct (simulate_dice_rolls_counts rng randint Hrand m g)
    as (cm & gm & Hrm & Hkm & Hwfm & _ & _ & Hgm).
  destruct (simulate_dice_rolls_counts rng randint Hrand n gm)
    as (cn & gn & Hrn & Hkn & Hwfn & _ & _ & Hgn).
  destruct (simulate_dice_rolls_counts rng randint Hrand (m + n) g)
    as (c & g' & Hr & Hk & Hwf & _ & _ & Hg).
  exists cm, gm, cn, gn. split; [exact Hrm|]. split; [exact Hrn|].
  rewrite Hr.
  assert (gm = advance randint (2 * Z.to_nat m) g) as Egm
    by exact (roll_loop_advance rng randint _ _ _ _ _ Hrm).
  assert (g' = advance randint (2 * Z.to_nat (m + n)) g) as Eg'
    by exact (roll_loop_advance rng randint _ _ _ _ _ Hr).
  assert (gn = advance randint (2 * Z.to_nat n) gm) as Egn
    by exact (roll_loop_advance rng randint _ _ _ _ _ Hrn).
  assert (forall a b h, advance randint (a + b) h
                        = advance randint b (advance randint a h)) as Hadv.
  { induction a as [|a IH]; intros b h; [reflexivity|]. cbn [Nat.add advance].
    apply IH. }
  f_equal. f_equal.
  - apply dict_ext; [exact Hwf | now rewrite keys_add_counts, Hk, Hkm |].
    intros k Hin. rewrite Hk in Hin. apply bucket_range in Hin.
    rewrite (Hg k Hin).
    rewrite (get_add_counts cm cn k _ _ (Hgm k Hin) (Hgn k Hin)).
    rewrite Z2Nat.inj_add, trial_sums_app, tally_app, <- Egm by assumption.
    reflexivity.
  - rewrite Eg', Egn, Egm, Z2Nat.inj_add by assumption.
    replace (2 * (Z.to_nat m + Z.to_nat n))%nat
      with (2 * Z.to_nat m + 2 * Z.to_nat n)%nat by lia.
    apply Hadv.
Qed.

Lemma simulate_splits_witness :
  randint_contract Lcg.randint /\ 0 <= 3 /\ 0 <= 2 /\
  exists counts_m g_m counts_n g_n,
    simulate_dice_rolls Lcg.randint 3 1 = Ok (counts_m, g_m) /\
    simulate_dice_rolls Lcg.randint 2 g_m = Ok (counts_n, g_n) /\
    simulate_dice_rolls Lcg.randint (3 + 2) 1 = Ok (add_counts counts_m counts_n, g_n).
Proof.
  split; [exact lcg_randint_contract|]. split; [lia|]. split; [lia|].
  apply (simulate_splits Lcg.rng Lcg.randint 3 2 1 lcg_randint_contract); lia.
Defined.

(** ** The exceptions of [calculate_percentages] *)

Lemma int_truediv_exceptions (c t : Z) (e : exn) :
  Float.int_truediv c t = Raise e ->
  (e = ZeroDivisionError /\ t = 0) \/ (e = OverflowError /\ t <> 0).
Proof.
  unfold Float.int_truediv. destruct (Z.eqb_spec t 0) as [->|Hne].
  - intros H. injection H as <-. now left.
  - destruct (SFdiv _ _ _ _); intros H; try discriminate.
    injection H as <-. now right.
Qed.

Lemma for_each_percentage_exceptions (t : Z) (d : dict Z) :
  forall acc e,
    for_each (percentage_step binary64 t) d acc = Raise e ->
    (e = ZeroDivisionError /\ t = 0) \/ (e = OverflowError /\ t <> 0).
Proof.
  induction d as [|[k c] d IH]; intros acc e; cbn [for_each]; [discriminate|].
  unfold percentage_step at 1. cbn [truediv binary64].
  destruct (Float.int_truediv c t) as [q|e'] eqn:Hq; cbn [bind].
  - apply IH.
  - intros H. injection H as <-. exact (int_truediv_exceptions c t e' Hq).
Qed.

(** X6.  [calculate_percentages] raises [ZeroDivisionError] exactly when the
    total is 0 and the mapping has an item; an empty mapping gives an empty
    mapping for every total, 0 included.  The only other exception is the
    [OverflowError] of a quotient too large for a float, with a non-zero
    total; no lookup ever fails. *)
Theorem calculate_percentages_exceptions (roll_counts : dict Z) (total_rolls : Z) :
  (calculate_percentages roll_counts total_rolls = Raise ZeroDivisionError
   <-> total_rolls = 0 /\ roll_counts <> []) /\
  calculate_percentages [] total_rolls = Ok [] /\
  (forall e, calculate_percentages roll_counts total_rolls = Raise e ->
             (e = ZeroDivisionError /\ total_rolls = 0) \/
             (e = OverflowError /\ total_rolls <> 0)).
Proof.
  assert (forall e, calculate_percentages roll_counts total_rolls = Raise e ->
                    (e = ZeroDivisionError /\ total_rolls = 0) \/
                    (e = OverflowError /\ total_rolls <> 0)) as Hexn
    by (intros e; apply for_each_percentage_exceptions).
  split; [|split; [reflexivity | exact Hexn]].
  split.
  - intros H. destruct (Hexn _ H) as [[_ ->]|[E _]]; [|discriminate].
    split; [reflexivity|]. intros ->. discriminate H.
  - intros [-> Hne]. destruct roll_counts as [|[k c] d]; [congruence|].
    reflexivity.
Qed.

(** ** Rounding to nearest, in units of the rounding exponent *)

Module RoundingFacts.

Import Float FloatFacts.

Local Open Scope Q_scope.

(** [binary_round_aux] returns [M * 2^E], where [E] is the rounding exponent
    and [M] the integer nearest to the number in units of [2^E], ties going
    to the even one. *)
Lemma binary_round_aux_nearest (sx : bool) (mx ex : Z) (lx : location) (y : Q) :
  located mx lx y ->
  (round_exp mx ex < emax - prec)%Z ->
  exists m e m' l',
    binary_round_aux prec emax sx mx ex lx = mk_float sx m e /\
    (0 <= m)%Z /\
    located m' l' (y * pow2 (ex - round_exp mx ex)) /\
    inject_Z m * pow2 e
    == inject_Z (round_nearest_even m' l') * pow2 (round_exp mx ex).
Proof.
  intros Hl HE.
  pose proof (round_exp_ge_emin mx ex) as Hemin.
  unfold binary_round_aux, shr_fexp.
  set (n := (fexp prec emax (Zdigits2 mx + ex) - ex)%Z).
  destruct (shr_located mx lx ex n y Hl) as [He1 L1].
  destruct (shr (shr_record_of_loc mx lx) ex n) as [mrs1 e1].
  cbn [fst snd] in He1, L1.
  assert (e1 = round_exp mx ex) as HE1 by (unfold round_exp; lia).
  destruct (round_nearest_even_located _ _ _ L1) as [Hm1 _].
  assert (- Z.max 0 n = ex - round_exp mx ex)%Z as Hsh by lia.
  rewrite Hsh in L1.
  set (m1 := round_nearest_even (shr_m mrs1) (loc_of_shr_record mrs1)) in *.
  assert (0 <= shr_m mrs1)%Z as Hm0 by apply L1.
  assert (shr_m mrs1 < 2 ^ prec)%Z as Hlt.
  { apply pow2_lt_Z; [unfold prec; lia|].
    eapply Qle_lt_trans; [apply (located_bounds _ _ _ L1)|].
    assert (0 <= mx)%Z as Hmx by apply Hl.
    assert (y < pow2 (Zdigits2 mx)) as Hy.
    { pose proof (Zdigits2_upper mx Hmx) as U.
      pose proof (Zdigits2_nonneg mx) as N.
      rewrite pow2_nonneg_Z by assumption.
      assert (mx + 1 <= 2 ^ Zdigits2 mx)%Z as U' by lia.
      rewrite Zle_Qle, inject_Z_plus in U'.
      pose proof (located_bounds _ _ _ Hl). change (inject_Z 1) with 1 in U'. lra. }
    apply Qlt_le_trans with (pow2 (Zdigits2 mx) * pow2 (ex - round_exp mx ex)).
    - pose proof (pow2_pos (ex - round_exp mx ex)).
      set (a := pow2 (ex - round_exp mx ex)) in *.
      set (b := pow2 (Zdigits2 mx)) in *. nra.
    - rewrite <- pow2_add. apply pow2_le. unfold round_exp, fexp. lia. }
  destruct (Z.eq_dec m1 (2 ^ prec)) as [Hfull|Hnot].
  - rewrite Hfull.
    replace (fexp prec emax (Zdigits2 (2 ^ prec) + e1) - e1)%Z with 1%Z.
    2:{ change (Zdigits2 (2 ^ prec)) with 54%Z.
        unfold fexp, emin, prec, emax in *. lia. }
    exists (2 ^ (prec - 1))%Z, (e1 + 1)%Z, (shr_m mrs1), (loc_of_shr_record mrs1).
    split; [|split; [|split]].
    + cbn. destruct (e1 + 1 <=? 971)%Z eqn:Hle; [reflexivity|].
      apply Z.leb_gt in Hle. unfold emax, prec in HE. lia.
    + cbn. lia.
    + exact L1.
    + fold m1. rewrite Hfull, <- HE1, pow2_succ.
      assert (inject_Z (2 ^ prec) == 2 * inject_Z (2 ^ (prec - 1))) as ->
        by (unfold Qeq; reflexivity).
      ring.
  - assert (0 <= m1 < 2 ^ prec)%Z as Hm1' by lia.
    pose proof (Zdigits2_le m1 prec ltac:(unfold prec; lia) Hm1') as Hd.
    rewrite shr_nonpos by (unfold fexp in *; lia).
    cbn [shr_m shr_record_of_loc].
    exists m1, e1, (shr_m mrs1), (loc_of_shr_record mrs1).
    split; [|split; [|split]].
    + unfold mk_float. destruct m1 as [|p|p]; try reflexivity.
      destruct (e1 <=? emax - prec)%Z eqn:Hle; [reflexivity|].
      apply Z.leb_gt in Hle. lia.
    + lia.
    + exact L1.
    + fold m1. now rewrite HE1.
Qed.

(** The nearest integer does not cross an integer. *)
Lemma nearest_below (m : Z) (l : location) (u : Q) (K : Z) :
  located m l u -> u <= inject_Z K -> (round_nearest_even m l <= K)%Z.
Proof.
  intros Hl Hu. destruct (round_nearest_even_located m l u Hl) as [_ Herr].
  apply Qabs_diff_Qle_condition in Herr.
  destruct (Z_le_gt_dec (round_nearest_even m l) K) as [|G]; [assumption|exfalso].
  assert (K + 1 <= round_nearest_even m l)%Z as G' by lia.
  rewrite Zle_Qle, inject_Z_plus in G'. change (inject_Z 1) with 1 in G'.
  set (r := inject_Z (round_nearest_even m l)) in *. set (k := inject_Z K) in *.
  lra.
Qed.

Lemma nearest_above (m : Z) (l : location) (u : Q) (K : Z) :
  located m l u -> inject_Z K <= u -> (K <= round_nearest_even m l)%Z.
Proof.
  intros Hl Hu. destruct (round_nearest_even_located m l u Hl) as [_ Herr].
  apply Qabs_diff_Qle_condition in Herr.
  destruct (Z_le_gt_dec K (round_nearest_even m l)) as [|G]; [assumption|exfalso].
  assert (round_nearest_even m l + 1 <= K)%Z as G' by lia.
  rewrite Zle_Qle, inject_Z_plus in G'. change (inject_Z 1) with 1 in G'.
  set (r := inject_Z (round_nearest_even m l)) in *. set (k := inject_Z K) in *.
  lra.
Qed.

(** Rounding to nearest, ties to even, is monotone. *)
Lemma round_nearest_even_mono (m1 m2 : Z) (l1 l2 : location) (u1 u2 : Q) :
  located m1 l1 u1 -> located m2 l2 u2 -> u1 <= u2 ->
  (round_nearest_even m1 l1 <= round_nearest_even m2 l2)%Z.
Proof.
  intros H1 H2 Hu.
  destruct (round_nearest_even_located _ _ _ H1) as [B1 _].
  destruct (round_nearest_even_located _ _ _ H2) as [B2 _].
  pose proof (located_bounds _ _ _ H1) as L1.
  pose proof (located_bounds _ _ _ H2) as L2.
  destruct (Z.lt_trichotomy m1 m2) as [Hlt|[Heq|Hgt]].
  - lia.
  - subst m2. clear B1 B2 L1 L2. destruct H1 as [_ H1], H2 as [_ H2].
    set (M := inject_Z m1) in *.
    destruct l1 as [|[| |]], l2 as [|[| |]]; cbn [round_nearest_even];
      destruct (Z.even m1); try lia; exfalso; lra.
  - exfalso. assert (m2 + 1 <= m1)%Z as G by lia.
    rewrite Zle_Qle, inject_Z_plus in G. change (inject_Z 1) with 1 in G.
    set (a := inject_Z m1) in *. set (b := inject_Z m2) in *. lra.
Qed.

Lemma pow2_inv' (a : Z) : pow2 (- a) * pow2 a == 1.
Proof. rewrite Qmult_comm. apply pow2_inv. Qed.

Lemma pow2_scale_le (a b : Q) (e : Z) : a <= b <-> a * pow2 e <= b * pow2 e.
Proof.
  pose proof (pow2_pos e) as H. split; intros Hab.
  - apply Qmult_le_compat_r; [assumption | lra].
  - now apply Qmult_lt_0_le_reg_r in Hab.
Qed.

Lemma pow2_rescale (x : Q) (a b : Z) : x * pow2 a == x * pow2 (a - b) * pow2 b.
Proof.
  rewrite <- Qmult_assoc, <- pow2_add. now replace (a - b + b)%Z with a by ring.
Qed.

Lemma inject_Z_pow2 (K j : Z) :
  (0 <= j)%Z -> inject_Z (K * 2 ^ j) == inject_Z K * pow2 j.
Proof. intros Hj. now rewrite inject_Z_mult, pow2_nonneg_Z. Qed.

(** In units of the rounding exponent, a located number is below [2^prec]. *)
Lemma scaled_lt_prec (mx ex : Z) (lx : location) (y : Q) :
  located mx lx y ->
  y * pow2 (ex - round_exp mx ex) < pow2 prec.
Proof.
  intros Hl.
  assert (0 <= mx)%Z as Hmx by apply Hl.
  pose proof (Zdigits2_upper mx Hmx) as U.
  pose proof (Zdigits2_nonneg mx) as N.
  assert (y < pow2 (Zdigits2 mx)) as Hy.
  { rewrite pow2_nonneg_Z by assumption.
    assert (mx + 1 <= 2 ^ Zdigits2 mx)%Z as U' by lia.
    rewrite Zle_Qle, inject_Z_plus in U'.
    pose proof (located_bounds _ _ _ Hl). change (inject_Z 1) with 1 in U'. lra. }
  apply Qlt_le_trans with (pow2 (Zdigits2 mx) * pow2 (ex - round_exp mx ex)).
  - pose proof (pow2_pos (ex - round_exp mx ex)).
    set (a := pow2 (ex - round_exp mx ex)) in *.
    set (b := pow2 (Zdigits2 mx)) in *. nra.
  - rewrite <- pow2_add. apply pow2_le. unfold round_exp, fexp. lia.
Qed.

(** When the digits decide the rounding exponent, the number is at least
    [2^(prec-1)] in units of it. *)
Lemma scaled_ge_normal (mx ex : Z) (lx : location) (y : Q) :
  located mx lx y ->
  (emin prec emax < round_exp mx ex)%Z ->
  (ex <= fexp prec emax (Zdigits2 mx + ex))%Z ->
  pow2 (prec - 1) <= y * pow2 (ex - round_exp mx ex).
Proof.
  intros Hl Hemin Hex.
  assert (0 <= mx)%Z as Hmx by apply Hl.
  assert (round_exp mx ex = Zdigits2 mx + ex - prec)%Z as HE
    by (unfold round_exp, fexp in *; lia).
  assert (0 < mx)%Z as Hpos.
  { destruct (Z.eq_dec mx 0) as [E|]; [|lia]. subst mx. cbn in HE.
    unfold round_exp, fexp, prec in *. cbn in Hex. lia. }
  pose proof (Zdigits2_lower mx Hpos) as L.
  pose proof (Zdigits2_nonneg mx) as N.
  assert (1 <= Zdigits2 mx)%Z as N1.
  { destruct mx; cbn; lia. }
  rewrite Zle_Qle, <- pow2_nonneg_Z in L by lia.
  pose proof (located_bounds _ _ _ Hl) as [B _].
  rewrite HE.
  replace (ex - (Zdigits2 mx + ex - prec))%Z with (prec - Zdigits2 mx)%Z by ring.
  replace (prec - 1)%Z with (Zdigits2 mx - 1 + (prec - Zdigits2 mx))%Z by ring.
  rewrite pow2_add. apply pow2_scale_le. lra.
Qed.

(** With an exact location and no digit to drop, the number is its own
    nearest integer. *)
Lemma nearest_of_exact (mx ex : Z) (lx : location) (y : Q) (m' : Z) (l' : location) :
  located mx lx y ->
  lx = loc_Exact ->
  round_exp mx ex = ex ->
  located m' l' (y * pow2 (ex - round_exp mx ex)) ->
  round_nearest_even m' l' = mx.
Proof.
  intros Hl -> HE Hl'. rewrite HE, Z.sub_diag in Hl'.
  destruct Hl as [_ Hy]. cbn in Hy.
  assert (y * pow2 0 == inject_Z mx) as Hu by (rewrite Hy, pow2_0; ring).
  apply Z.le_antisymm.
  - apply (nearest_below _ _ _ _ Hl'). rewrite Hu. apply Qle_refl.
  - apply (nearest_above _ _ _ _ Hl'). rewrite Hu. apply Qle_refl.
Qed.

(** [binary_round_aux] is monotone on located numbers, provided an inexact
    location comes with enough digits for the rounding exponent. *)
Lemma binary_round_aux_mono
  (mx1 ex1 : Z) (lx1 : location) (y1 : Q)
  (mx2 ex2 : Z) (lx2 : location) (y2 : Q) :
  located mx1 lx1 y1 -> located mx2 lx2 y2 ->
  (round_exp mx1 ex1 < emax - prec)%Z ->
  (round_exp mx2 ex2 < emax - prec)%Z ->
  (lx1 = loc_Exact \/ (ex1 <= fexp prec emax (Zdigits2 mx1 + ex1))%Z) ->
  (lx2 = loc_Exact \/ (ex2 <= fexp prec emax (Zdigits2 mx2 + ex2))%Z) ->
  y1 * pow2 ex1 <= y2 * pow2 ex2 ->
  to_Q (binary_round_aux prec emax false mx1 ex1 lx1)
  <= to_Q (binary_round_aux prec emax false mx2 ex2 lx2).
Proof.
  intros Hl1 Hl2 HE1 HE2 Hp1 Hp2 Hx.
  destruct (binary_round_aux_nearest false mx1 ex1 lx1 y1 Hl1 HE1)
    as (m1 & e1 & m1' & l1' & -> & Hm1 & Hu1 & Hv1).
  destruct (binary_round_aux_nearest false mx2 ex2 lx2 y2 Hl2 HE2)
    as (m2 & e2 & m2' & l2' & -> & Hm2 & Hu2 & Hv2).
  rewrite !to_Q_mk_float by assumption. rewrite Hv1, Hv2.
  pose proof (scaled_lt_prec mx1 ex1 lx1 y1 Hl1) as Hlt1.
  pose proof (scaled_lt_prec mx2 ex2 lx2 y2 Hl2) as Hlt2.
  pose proof (round_exp_ge_emin mx1 ex1) as Hmin1.
  pose proof (round_exp_ge_emin mx2 ex2) as Hmin2.
  rewrite (pow2_rescale y1 ex1 (round_exp mx1 ex1)) in Hx.
  rewrite (pow2_rescale y2 ex2 (round_exp mx2 ex2)) in Hx.
  set (E1 := round_exp mx1 ex1) in *. set (E2 := round_exp mx2 ex2) in *.
  set (u1 := y1 * pow2 (ex1 - E1)) in *. set (u2 := y2 * pow2 (ex2 - E2)) in *.
  set (M1 := round_nearest_even m1' l1') in *.
  set (M2 := round_nearest_even m2' l2') in *.
  assert (pow2 prec == inject_Z (2 ^ prec)) as Hprec
    by (apply pow2_nonneg_Z; unfold prec; lia).
  destruct (Z.lt_trichotomy E1 E2) as [Hlt|[Heq|Hgt]].
  - (* the second number rounds at a coarser exponent *)
    assert (pow2 E2 == pow2 (E2 - E1) * pow2 E1) as HD
      by (rewrite <- pow2_add; now replace (E2 - E1 + E1)%Z with E2 by ring).
    destruct (Z_le_gt_dec ex2 (fexp prec emax (Zdigits2 mx2 + ex2))) as [Hdig|Hshort].
    + assert (M1 <= 2 ^ prec)%Z as HM1
        by (apply (nearest_below _ _ _ _ Hu1); fold u1; rewrite <- Hprec; lra).
      assert (2 ^ (prec - 1) <= M2)%Z as HM2.
      { apply (nearest_above _ _ _ _ Hu2). fold u2.
        rewrite <- pow2_nonneg_Z by (unfold prec; lia).
        apply (scaled_ge_normal mx2 ex2 lx2 y2 Hl2); [fold E2; lia | exact Hdig]. }
      rewrite Zle_Qle, <- Hprec in HM1.
      rewrite Zle_Qle, <- pow2_nonneg_Z in HM2 by (unfold prec; lia).
      apply Qle_trans with (pow2 prec * pow2 E1);
        [apply pow2_scale_le; exact HM1|].
      apply Qle_trans with (pow2 (prec - 1) * pow2 E2);
        [|apply pow2_scale_le; exact HM2].
      rewrite <- !pow2_add. apply pow2_le. lia.
    + assert (lx2 = loc_Exact) as Hex2 by (destruct Hp2 as [|]; [assumption|lia]).
      assert (E2 = ex2) as HE2' by (unfold E2, round_exp; lia).
      assert (M2 = mx2) as ->
        by (apply (nearest_of_exact mx2 ex2 lx2 y2 m2' l2'); auto).
      assert (u2 == inject_Z mx2) as Hu2'.
      { unfold u2. rewrite HE2', Z.sub_diag, pow2_0.
        destruct Hl2 as [_ Hy]. rewrite Hex2 in Hy. cbn in Hy. rewrite Hy. ring. }
      assert (M1 <= mx2 * 2 ^ (E2 - E1))%Z as HM1.
      { apply (nearest_below _ _ _ _ Hu1). fold u1.
        rewrite inject_Z_pow2 by lia. apply (pow2_scale_le _ _ E1).
        rewrite <- Qmult_assoc, <- HD, <- Hu2'. exact Hx. }
      rewrite Zle_Qle, inject_Z_pow2 in HM1 by lia.
      apply (pow2_scale_le _ _ E1) in HM1.
      rewrite <- Qmult_assoc, <- HD in HM1. exact HM1.
  - (* the same exponent *)
    rewrite <- Heq in *. apply pow2_scale_le. rewrite <- Zle_Qle.
    apply (round_nearest_even_mono _ _ _ _ _ _ Hu1 Hu2).
    fold u1 u2. now apply (pow2_scale_le _ _ E1).
  - (* the first number rounds at a coarser exponent *)
    assert (pow2 E1 == pow2 (E1 - E2) * pow2 E2) as HD
      by (rewrite <- pow2_add; now replace (E1 - E2 + E2)%Z with E1 by ring).
    destruct (Z_le_gt_dec ex1 (fexp prec emax (Zdigits2 mx1 + ex1))) as [Hdig|Hshort].
    + exfalso.
      pose proof (scaled_ge_normal mx1 ex1 lx1 y1 Hl1 ltac:(fold E1; lia) Hdig) as Hge.
      fold E1 u1 in Hge.
      assert (pow2 prec * pow2 E2 <= pow2 (prec - 1) * pow2 E1) as Hpp
        by (rewrite <- !pow2_add; apply pow2_le; lia).
      apply (pow2_scale_le _ _ E1) in Hge.
      pose proof (pow2_pos E2) as HpE2.
      assert (u2 * pow2 E2 < pow2 prec * pow2 E2) as Hlt2'.
      { apply Qmult_lt_compat_r; assumption. }
      lra.
    + assert (lx1 = loc_Exact) as Hex1 by (destruct Hp1 as [|]; [assumption|lia]).
      assert (E1 = ex1) as HE1' by (unfold E1, round_exp; lia).
      assert (M1 = mx1) as ->
        by (apply (nearest_of_exact mx1 ex1 lx1 y1 m1' l1'); auto).
      assert (u1 == inject_Z mx1) as Hu1'.
      { unfold u1. rewrite HE1', Z.sub_diag, pow2_0.
        destruct Hl1 as [_ Hy]. rewrite Hex1 in Hy. cbn in Hy. rewrite Hy. ring. }
      assert (mx1 * 2 ^ (E1 - E2) <= M2)%Z as HM2.
      { apply (nearest_above _ _ _ _ Hu2). fold u2.
        rewrite inject_Z_pow2 by lia. apply (pow2_scale_le _ _ E2).
        rewrite <- Qmult_assoc, <- HD, <- Hu1'. exact Hx. }
      rewrite Zle_Qle, inject_Z_pow2 in HM2 by lia.
      apply (pow2_scale_le _ _ E2) in HM2.
      rewrite <- Qmult_assoc, <- HD in HM2. exact HM2.
Qed.

(** A significand of at least [2^j] has more than [j] digits. *)
Lemma Zdigits2_gt (m j : Z) : (0 <= j)%Z -> (2 ^ j <= m)%Z -> (j < Zdigits2 m)%Z.
Proof.
  intros Hj H. pose proof (Zdigits2_upper m ltac:(lia)) as U.
  pose proof (Zdigits2_nonneg m) as N.
  apply (Z.pow_lt_mono_r_iff 2); lia.
Qed.

(** The quotient that [SFdiv] hands to the rounding has digits enough for
    its location to be the one of a correct rounding. *)
Lemma SFdiv_core_int_digits (a b : positive) (q e : Z) (l : location) :
  (a <= b)%positive ->
  SFdiv_core_binary prec emax (Z.pos a) 0 (Z.pos b) 0 = (q, e, l) ->
  (e <= fexp prec emax (Zdigits2 q + e))%Z.
Proof.
  intros Hab. unfold SFdiv_core_binary.
  set (d1 := Zdigits2 (Z.pos a)). set (d2 := Zdigits2 (Z.pos b)).
  assert (d1 <= d2)%Z as Hd.
  { apply Zdigits2_le; [apply Zdigits2_nonneg|].
    pose proof (Zdigits2_upper (Z.pos b) ltac:(lia)). fold d2 in H. lia. }
  assert (1 <= d1)%Z as Hd1 by (unfold d1; cbn; lia).
  pose proof (Zdigits2_lower (Z.pos a) ltac:(lia)) as La. fold d1 in La.
  pose proof (Zdigits2_upper (Z.pos b) ltac:(lia)) as Ub. fold d2 in Ub.
  set (e0 := Z.min (fexp prec emax (d1 + 0 - (d2 + 0))) (0 - 0)).
  assert (emin prec emax <= e0 <= -53)%Z as He
    by (unfold e0, fexp, emin, prec, emax; lia).
  set (s := (0 - 0 - e0)%Z).
  assert (0 < s)%Z as Hs by (unfold s; lia).
  assert (match s with
          | 0%Z => Z.pos a
          | Z.pos _ => Z.shiftl (Z.pos a) s
          | Z.neg _ => 0%Z
          end = Z.pos a * 2 ^ s)%Z as ->.
  { destruct s eqn:Es; try lia. rewrite <- Es, Z.shiftl_mul_pow2; lia. }
  pose proof (Z_div_mod (Z.pos a * 2 ^ s) (Z.pos b) ltac:(lia)) as Hdm.
  destruct (Z.div_eucl (Z.pos a * 2 ^ s) (Z.pos b)) as [q0 r].
  destruct Hdm as [Hdm Hr].
  intros H. injection H as <- <- _.
  destruct (Z.eq_dec e0 (emin prec emax)) as [Emin|Hnot].
  - unfold fexp. lia.
  - assert (e0 = d1 - d2 - prec)%Z as E0
      by (unfold e0, fexp, emin, prec, emax in *; lia).
    assert (s = prec + d2 - d1)%Z as Es by (unfold s; lia).
    assert (2 ^ (prec - 1) <= q0)%Z as Hq.
    { assert (2 ^ (d1 - 1) * 2 ^ s = 2 ^ (prec - 1) * 2 ^ d2)%Z as Hpow.
      { rewrite <- !Z.pow_add_r by (unfold prec; lia). f_equal. lia. }
      assert (0 < 2 ^ s)%Z by (apply Z.pow_pos_nonneg; lia).
      assert (0 < 2 ^ (prec - 1))%Z by (apply Z.pow_pos_nonneg; unfold prec; lia).
      destruct (Z_le_gt_dec (2 ^ (prec - 1)) q0) as [|G]; [assumption|exfalso].
      assert (Z.pos b * q0 + r < Z.pos b * 2 ^ (prec - 1))%Z by nia.
      assert (Z.pos b * 2 ^ (prec - 1) < 2 ^ (prec - 1) * 2 ^ d2)%Z by nia.
      assert (2 ^ (d1 - 1) * 2 ^ s <= Z.pos a * 2 ^ s)%Z by nia.
      lia. }
    pose proof (Zdigits2_gt q0 (prec - 1) ltac:(unfold prec; lia) Hq).
    unfold fexp. lia.
Qed.

(** On counts, the division is the rounding of the located quotient. *)
Lemma int_truediv_as_round (a b : positive) (q e : Z) (l : location) (y : Q) :
  SFdiv_core_binary prec emax (Z.pos a) 0 (Z.pos b) 0 = (q, e, l) ->
  located q l y ->
  (round_exp q e < emax - prec)%Z ->
  int_truediv (Z.pos a) (Z.pos b) = Ok (binary_round_aux prec emax false q e l).
Proof.
  intros Hcore Hloc HE. unfold int_truediv. cbn [Z.eqb of_int_exact SFdiv xorb].
  rewrite Hcore.
  destruct (binary_round_aux_spec false q e l y Hloc HE) as (m & e' & -> & _).
  now destruct m.
Qed.

(** A number that is an integer in units of the rounding exponent is
    returned as it is. *)
Lemma binary_round_aux_exact (mx ex : Z) (lx : location) (y : Q) (K : Z) :
  located mx lx y ->
  (round_exp mx ex < emax - prec)%Z ->
  y * pow2 ex == inject_Z K * pow2 (round_exp mx ex) ->
  to_Q (binary_round_aux prec emax false mx ex lx)
  == inject_Z K * pow2 (round_exp mx ex).
Proof.
  intros Hl HE Hy.
  destruct (binary_round_aux_nearest false mx ex lx y Hl HE)
    as (m & e & m' & l' & -> & Hm & Hu & Hv).
  rewrite to_Q_mk_float, Hv by assumption.
  rewrite (pow2_rescale y ex (round_exp mx ex)) in Hy.
  assert (y * pow2 (ex - round_exp mx ex) == inject_Z K) as Hu'.
  { apply Qmult_cancel_r with (pow2 (round_exp mx ex)); [apply pow2_pos | exact Hy]. }
  assert (round_nearest_even m' l' = K) as ->.
  { apply Z.le_antisymm.
    - apply (nearest_below _ _ _ _ Hu). rewrite Hu'. apply Qle_refl.
    - apply (nearest_above _ _ _ _ Hu). rewrite Hu'. apply Qle_refl. }
  reflexivity.
Qed.

(** *** The two operations of a percentage *)

Lemma float_100_value : inject_Z 7036874417766400 * pow2 (-46) == 100.
Proof. unfold Qeq. reflexivity. Qed.

Lemma mul_100_as_round (p : positive) (e : Z) :
  mul (mk_float false (Z.pos p) e) (of_int 100)
  = binary_round_aux prec emax false (Z.pos (p * 7036874417766400)) (e + -46) loc_Exact.
Proof. reflexivity. Qed.

Lemma mul_100_located (p : positive) (e : Z) :
  located (Z.pos (p * 7036874417766400)) loc_Exact
          (inject_Z (Z.pos (p * 7036874417766400))) /\
  inject_Z (Z.pos (p * 7036874417766400)) * pow2 (e + -46)
  == 100 * (inject_Z (Z.pos p) * pow2 e).
Proof.
  split; [split; [lia | reflexivity]|].
  rewrite Pos2Z.inj_mul, inject_Z_mult, pow2_add, <- float_100_value. ring.
Qed.

(** A product with 100.0 that stays below 128 is rounded at exponent -46
    or below. *)
Lemma mul_100_round_exp (p : positive) (e : Z) :
  (e <= 0)%Z ->
  inject_Z (Z.pos p) * pow2 e < 128 # 100 ->
  (emin prec emax <= round_exp (Z.pos (p * 7036874417766400)) (e + -46) <= -46)%Z.
Proof.
  intros He Hx.
  destruct (mul_100_located p e) as [_ Hval].
  set (M := 7036874417766400%positive) in *.
  assert (Z.pos (p * M) < 2 ^ (53 - e))%Z as Hlt.
  { apply pow2_lt_Z; [lia|].
    replace (53 - e)%Z with (53 + 46 + (- e + -46))%Z by ring.
    rewrite pow2_add.
    assert (pow2 (e + -46) * pow2 (- e + -46 + 92) == 1) as Hinv.
    { rewrite <- pow2_add.
      now replace (e + -46 + (- e + -46 + 92))%Z with 0%Z by ring. }
    assert (pow2 (- e + -46 + 92) == pow2 (- e + -46) * pow2 92) as Hsplit
      by apply pow2_add.
    assert (pow2 (53 + 46) == 128 * pow2 92) as H99 by (unfold Qeq; reflexivity).
    assert (0 < pow2 92) as H92 by apply pow2_pos.
    pose proof (pow2_pos (e + -46)) as Hp1.
    pose proof (pow2_pos (- e + -46)) as Hp2.
    rewrite H99. rewrite Hsplit in Hinv.
    set (P := inject_Z (Z.pos (p * M))) in *.
    set (X := inject_Z (Z.pos p) * pow2 e) in *.
    set (u := pow2 (e + -46)) in *. set (v := pow2 (- e + -46)) in *.
    set (w := pow2 92) in *.
    assert (P * u < 128) as H1 by lra.
    assert (P == P * u * (v * w)) as -> by (rewrite <- Qmult_assoc, Hinv; ring).
    assert (0 < v * w) as Hvw by nra.
    set (t := v * w) in *.
    assert (P * u * t < 128 * t) as H2 by nra.
    unfold t in *. lra. }
  pose proof (Zdigits2_le (Z.pos (p * M)) (53 - e) ltac:(lia) ltac:(lia)) as Hd.
  unfold round_exp, fexp, emin, prec, emax in *. lia.
Qed.

Lemma to_Q_mk_float_nonneg (m e : Z) : (0 <= m)%Z -> 0 <= to_Q (mk_float false m e).
Proof.
  intros Hm. rewrite to_Q_mk_float by assumption.
  rewrite Zle_Qle in Hm. change (inject_Z 0) with 0 in Hm.
  pose proof (pow2_pos e). set (a := inject_Z m) in *. set (b := pow2 e) in *. nra.
Qed.

(** [x * 100] is monotone in [x], on the floats a quotient of counts can be. *)
Lemma mul_100_mono (m1 e1 m2 e2 : Z) :
  (0 <= m1)%Z -> (0 <= m2)%Z -> (e1 <= 0)%Z -> (e2 <= 0)%Z ->
  inject_Z m2 * pow2 e2 < 128 # 100 ->
  inject_Z m1 * pow2 e1 <= inject_Z m2 * pow2 e2 ->
  to_Q (mul (mk_float false m1 e1) (of_int 100))
  <= to_Q (mul (mk_float false m2 e2) (of_int 100)).
Proof.
  intros Hm1 Hm2 He1 He2 Hx2 Hle.
  destruct (mul_100_accuracy m2 e2 Hm2 He2 Hx2) as (m2' & e2' & Hr2 & Hm2' & _).
  destruct m1 as [|p1|p1]; try lia.
  - change (mul (mk_float false 0 e1) (of_int 100)) with (S754_zero false).
    rewrite Hr2. cbn [to_Q]. now apply to_Q_mk_float_nonneg.
  - destruct m2 as [|p2|p2]; try lia.
    + exfalso. pose proof (pow2_pos e1) as Hp.
      assert (0 < inject_Z (Z.pos p1)) as Hpos by (now rewrite <- (Zlt_Qlt 0)).
      assert (inject_Z 0 * pow2 e2 == 0) as E0 by (unfold inject_Z; ring).
      rewrite E0 in Hle.
      set (a := inject_Z (Z.pos p1)) in *. set (b := pow2 e1) in *. nra.
    + rewrite !mul_100_as_round.
      destruct (mul_100_located p1 e1) as [Hl1 Hv1].
      destruct (mul_100_located p2 e2) as [Hl2 Hv2].
      pose proof (mul_100_round_exp p1 e1 He1 ltac:(lra)) as HE1.
      pose proof (mul_100_round_exp p2 e2 He2 Hx2) as HE2.
      apply (binary_round_aux_mono _ _ _ _ _ _ _ _ Hl1 Hl2);
        try (unfold emax, prec; lia); auto.
      rewrite Hv1, Hv2. lra.
Qed.

(** [c / n] is monotone in the count [c]. *)
Lemma int_truediv_mono (c1 c2 n : Z) :
  (0 <= c1 <= c2)%Z -> (c2 <= n)%Z -> (0 < n)%Z ->
  exists q1 q2,
    int_truediv c1 n = Ok q1 /\ int_truediv c2 n = Ok q2 /\
    to_Q q1 <= to_Q q2.
Proof.
  intros Hc1 Hc2 Hn.
  destruct (int_truediv_accuracy c2 n ltac:(lia) Hn) as (m2 & e2 & Hq2 & Hm2 & _).
  destruct (int_truediv_accuracy c1 n ltac:(lia) Hn) as (m1 & e1 & Hq1 & Hm1 & _).
  exists (mk_float false m1 e1), (mk_float false m2 e2).
  split; [exact Hq1|]. split; [exact Hq2|].
  destruct n as [|b|b]; try lia.
  destruct c1 as [|a1|a1]; try lia.
  - cbn in Hq1. injection Hq1 as Hq1. rewrite <- Hq1. cbn [to_Q].
    now apply to_Q_mk_float_nonneg.
  - destruct c2 as [|a2|a2]; try lia.
    destruct (SFdiv_core_int a1 b ltac:(lia)) as (q1 & x1 & l1 & y1 & Hc1' & Hl1 & Hy1 & HE1).
    destruct (SFdiv_core_int a2 b ltac:(lia)) as (q2 & x2 & l2 & y2 & Hc2' & Hl2 & Hy2 & HE2).
    rewrite (int_truediv_as_round a1 b q1 x1 l1 y1 Hc1' Hl1) in Hq1
      by (unfold emax, prec; lia).
    rewrite (int_truediv_as_round a2 b q2 x2 l2 y2 Hc2' Hl2) in Hq2
      by (unfold emax, prec; lia).
    injection Hq1 as <-. injection Hq2 as <-.
    apply (binary_round_aux_mono _ _ _ _ _ _ _ _ Hl1 Hl2);
      try (unfold emax, prec; lia).
    + right. apply (SFdiv_core_int_digits a1 b q1 x1 l1); [lia | exact Hc1'].
    + right. apply (SFdiv_core_int_digits a2 b q2 x2 l2); [lia | exact Hc2'].
    + rewrite Hy1, Hy2.
      assert (0 < inject_Z (Z.pos b)) as HB by (now rewrite <- (Zlt_Qlt 0)).
      apply Qmult_le_compat_r; [|apply Qlt_le_weak, Qinv_lt_0_compat; exact HB].
      rewrite <- Zle_Qle. lia.
Qed.

(** [n / n] is 1.0, and [1.0 * 100] is 100.0. *)
Lemma full_count_percentage (n : Z) :
  (0 < n)%Z ->
  exists q,
    int_truediv n n = Ok q /\ to_Q q == 1 /\
    to_Q (mul q (of_int 100)) == 100.
Proof.
  intros Hn.
  destruct (int_truediv_accuracy n n ltac:(lia) Hn) as (m & e & Hq & Hm & He & _).
  exists (mk_float false m e). split; [exact Hq|].
  destruct n as [|b|b]; try lia.
  destruct (SFdiv_core_int b b ltac:(lia)) as (q & x & l & y & Hc & Hl & Hy & HE).
  rewrite (int_truediv_as_round b b q x l y Hc Hl) in Hq by (unfold emax, prec; lia).
  injection Hq as Hq.
  assert (0 < inject_Z (Z.pos b)) as HB by (now rewrite <- (Zlt_Qlt 0)).
  assert (to_Q (mk_float false m e) == 1) as H1.
  { rewrite <- Hq.
    rewrite (binary_round_aux_exact q x l y (2 ^ (- round_exp q x)) Hl)
      by (try (unfold emax, prec; lia);
          rewrite Hy, <- pow2_nonneg_Z, pow2_inv' by lia; field; lra).
    rewrite <- pow2_nonneg_Z by lia. apply pow2_inv'. }
  split; [exact H1|].
  rewrite to_Q_mk_float in H1 by assumption.
  destruct m as [|p|p]; try lia.
  - exfalso. unfold inject_Z in H1. lra.
  - rewrite mul_100_as_round.
    destruct (mul_100_located p e) as [Hl' Hv].
    pose proof (mul_100_round_exp p e ltac:(lia) ltac:(lra)) as HE'.
    set (E := round_exp (Z.pos (p * 7036874417766400)) (e + -46)) in *.
    assert (100 == inject_Z (100 * 2 ^ (- E)) * pow2 E) as H100.
    { rewrite inject_Z_pow2 by lia. rewrite <- Qmult_assoc, pow2_inv'. reflexivity. }
    transitivity (inject_Z (100 * 2 ^ (- E)) * pow2 E); [|symmetry; exact H100].
    apply binary_round_aux_exact with (y := inject_Z (Z.pos (p * 7036874417766400)));
      [exact Hl' | unfold emax, prec; fold E; lia |].
    fold E. rewrite Hv, H1, <- H100. reflexivity.
Qed.

End RoundingFacts.

(** ** Order and range of the percentages *)

Module PercentageOrder.

Import Float FloatFacts RoundingFacts.

Local Open Scope Q_scope.

(** The quotient of a count by the total, as a float, is below 1.28 and has
    a non-positive exponent. *)
Lemma quotient_shape (c n : Z) :
  (0 <= c <= n)%Z -> (0 < n)%Z ->
  exists m e,
    int_truediv c n = Ok (mk_float false m e) /\
    (0 <= m)%Z /\ (e <= 0)%Z /\ inject_Z m * pow2 e < 128 # 100.
Proof.
  intros Hc Hn.
  destruct (int_truediv_accuracy c n Hc Hn) as (m & e & Hq & Hm & He & Herr).
  exists m, e. repeat split; try assumption; try lia.
  assert (0 < inject_Z n) as HN by (now rewrite <- (Zlt_Qlt 0)).
  assert (inject_Z c / inject_Z n <= 1) as Hratio.
  { destruct Hc as [_ Hc1]. rewrite Zle_Qle in Hc1. apply Qle_shift_div_r; lra. }
  assert (pow2 (-53) <= 1 # 100) as Hsmall by (unfold Qle; vm_compute; discriminate).
  apply Qabs_diff_Qle_condition in Herr.
  set (x := inject_Z m * pow2 e) in *. set (t := inject_Z c / inject_Z n) in *. lra.
Qed.

(** A larger count never gets a smaller percentage. *)
Lemma percentage_order (c1 c2 n : Z) :
  (0 <= c1 <= c2)%Z -> (c2 <= n)%Z -> (0 < n)%Z ->
  exists q1 q2,
    truediv binary64 c1 n = Ok q1 /\ truediv binary64 c2 n = Ok q2 /\
    to_Q (mul_int binary64 q1 100) <= to_Q (mul_int binary64 q2 100).
Proof.
  intros Hc1 Hc2 Hn. cbn [truediv mul_int binary64].
  destruct (quotient_shape c1 n ltac:(lia) Hn) as (m1 & e1 & Hq1 & Hm1 & He1 & Hx1).
  destruct (quotient_shape c2 n ltac:(lia) Hn) as (m2 & e2 & Hq2 & Hm2 & He2 & Hx2).
  destruct (int_truediv_mono c1 c2 n Hc1 Hc2 Hn) as (q1 & q2 & Hq1' & Hq2' & Hle).
  rewrite Hq1 in Hq1'. rewrite Hq2 in Hq2'.
  injection Hq1' as <-. injection Hq2' as <-.
  rewrite !to_Q_mk_float in Hle by assumption.
  exists (mk_float false m1 e1), (mk_float false m2 e2).
  split; [exact Hq1|]. split; [exact Hq2|].
  now apply mul_100_mono.
Qed.

(** A percentage of a count between 0 and the total lies between 0 and 100,
    and is 100 for the total itself. *)
Lemma percentage_range (c n : Z) :
  (0 <= c <= n)%Z -> (0 < n)%Z ->
  exists q,
    truediv binary64 c n = Ok q /\
    0 <= to_Q (mul_int binary64 q 100) <= 100 /\
    (c = n -> to_Q (mul_int binary64 q 100) == 100).
Proof.
  intros Hc Hn.
  destruct (percentage_order 0 c n ltac:(lia) ltac:(lia) Hn)
    as (q0 & q & Hq0 & Hq & Hlow).
  destruct (percentage_order c n n ltac:(lia) ltac:(lia) Hn)
    as (q' & qn & Hq' & Hqn & Hhigh).
  destruct (full_count_percentage n Hn) as (qf & Hqf & _ & H100).
  cbn [truediv mul_int binary64] in *.
  rewrite Hq in Hq'. injection Hq' as <-.
  rewrite Hqf in Hqn. injection Hqn as <-.
  destruct (zero_percentage n ltac:(lia)) as [Hz Hmz].
  cbn [truediv mul_int binary64] in Hz, Hmz.
  rewrite Hz in Hq0. injection Hq0 as <-. rewrite Hmz in Hlow. cbn [to_Q float_0] in Hlow.
  exists q. split; [exact Hq|]. split; [split; [exact Hlow | now rewrite <- H100]|].
  intros ->. rewrite Hqf in Hq. injection Hq as <-. exact H100.
Qed.

End PercentageOrder.

(** X7.  For counts between 0 and the total, every percentage that
    [calculate_percentages] stores is a finite float between 0 and 100
    inclusive; a bucket that holds all the rolls gets exactly 100 and an
    empty bucket exactly 0.0. *)
Theorem percentages_within_0_100 (roll_counts : dict Z) (total_rolls : Z) :
  dict_wf roll_counts ->
  0 < total_rolls ->
  Forall (fun c => 0 <= c <= total_rolls) (values roll_counts) ->
  exists r,
    calculate_percentages roll_counts total_rolls = Ok r /\
    forall s c, get s roll_counts = Some c ->
      exists p,
        get s r = Some p /\ Float.is_finite p = true /\
        (0 <= Float.to_Q p <= 100)%Q /\
        (c = total_rolls -> (Float.to_Q p == 100)%Q) /\
        (c = 0 -> p = float_0).
Proof.
  intros Hwf Hpos Hbound.
  destruct (Binary64Facts.table_accuracy total_rolls roll_counts Hpos Hbound)
    as (r & Hr & _).
  exists r. split.
  - unfold calculate_percentages. now rewrite calculate_percentages_in_map.
  - intros s c Hc.
    destruct (map_result_percentage_get binary64 _ _ _ _ _ Hr Hc) as (q & Hq & Hp).
    assert (0 <= c <= total_rolls) as Hcb.
    { rewrite Forall_forall in Hbound. apply Hbound.
      apply get_In_item in Hc. unfold values.
      change c with (snd (s, c)). now apply in_map. }
    destruct (Binary64Facts.percentage_accuracy c total_rolls Hcb Hpos)
      as (q1 & Hq1 & Hfin & _).
    destruct (PercentageOrder.percentage_range c total_rolls Hcb Hpos)
      as (q2 & Hq2 & Hrange & Hfull).
    rewrite Hq in Hq1, Hq2. injection Hq1 as <-. injection Hq2 as <-.
    exists (mul_int binary64 q 100). repeat split; try assumption; try apply Hrange.
    intros ->. destruct (zero_percentage total_rolls Hpos) as [Hz Hm].
    rewrite Hz in Hq. injection Hq as <-. exact Hm.
Qed.

Lemma percentages_within_0_100_witness :
  dict_wf [(2, 0); (7, 3); (9, 1)] /\ 0 < 4 /\
  Forall (fun c => 0 <= c <= 4) (values [(2, 0); (7, 3); (9, 1)]) /\
  exists r,
    calculate_percentages [(2, 0); (7, 3); (9, 1)] 4 = Ok r /\
    forall s c, get s [(2, 0); (7, 3); (9, 1)] = Some c ->
      exists p,
        get s r = Some p /\ Float.is_finite p = true /\
        (0 <= Float.to_Q p <= 100)%Q /\
        (c = 4 -> (Float.to_Q p == 100)%Q) /\
        (c = 0 -> p = float_0).
Proof.
  assert (dict_wf [(2, 0); (7, 3); (9, 1)]) as Hwf.
  { unfold dict_wf. cbn.
    repeat (constructor; [cbn; intuition discriminate|]). constructor. }
  assert (Forall (fun c => 0 <= c <= 4) (values [(2, 0); (7, 3); (9, 1)])) as Hb.
  { cbn. repeat (constructor; [lia|]). constructor. }
  split; [exact Hwf|]. split; [lia|]. split; [exact Hb|].
  apply (percentages_within_0_100 [(2, 0); (7, 3); (9, 1)] 4 Hwf); [lia | exact Hb].
Defined.



(** ** A negative total *)

Lemma binary_round_aux_opp (s : bool) (mx ex : Z) (lx : location) :
  binary_round_aux Float.prec Float.emax (negb s) mx ex lx
  = SFopp (binary_round_aux Float.prec Float.emax s mx ex lx).
Proof.
  unfold binary_round_aux.
  destruct (shr_fexp Float.prec Float.emax mx ex lx) as [mrs' e'].
  destruct (shr_fexp Float.prec Float.emax _ e' loc_Exact) as [mrs'' e''].
  destruct (shr_m mrs''); [reflexivity | | reflexivity].
  now destruct (e'' <=? Float.emax - Float.prec).
Qed.

Lemma SFdiv_opp_r (x y : spec_float) :
  SFdiv Float.prec Float.emax x (SFopp y)
  = SFopp (SFdiv Float.prec Float.emax x y).
Proof.
  destruct x as [sx|sx| |sx mx ex], y as [sy|sy| |sy my ey];
    cbn [SFdiv SFopp]; try reflexivity;
    try (now destruct sx, sy).
  destruct (SFdiv_core_binary Float.prec Float.emax (Z.pos mx) ex (Z.pos my) ey)
    as [[mz ez] lz].
  rewrite <- binary_round_aux_opp. now destruct sx, sy.
Qed.

Lemma SFmul_opp_l (x y : spec_float) :
  SFmul Float.prec Float.emax (SFopp x) y
  = SFopp (SFmul Float.prec Float.emax x y).
Proof.
  destruct x as [sx|sx| |sx mx ex], y as [sy|sy| |sy my ey];
    cbn [SFmul SFopp]; try reflexivity;
    try (now destruct sx, sy).
  rewrite <- binary_round_aux_opp. now destruct sx, sy.
Qed.

(** Dividing by the opposite total gives the opposite quotient, or the same
    exception. *)
Lemma int_truediv_opp_r (c t : Z) :
  Float.int_truediv c (- t)
  = match Float.int_truediv c t with
    | Ok q => Ok (SFopp q)
    | Raise e => Raise e
    end.
Proof.
  unfold Float.int_truediv.
  destruct (Z.eqb_spec t 0) as [->|Hne]; [reflexivity|].
  destruct (Z.eqb_spec (- t) 0) as [E|_]; [lia|].
  assert (Float.of_int_exact (- t) = SFopp (Float.of_int_exact t)) as ->
    by (destruct t; [contradiction | reflexivity | reflexivity]).
  rewrite SFdiv_opp_r.
  now destruct (SFdiv Float.prec Float.emax (Float.of_int_exact c)
                  (Float.of_int_exact t)).
Qed.

Lemma negate_percentages_set (k : Z) (p : Float.float) (d : dict Float.float) :
  negate_percentages (set k p d) = set k (SFopp p) (negate_percentages d).
Proof.
  unfold negate_percentages.
  induction d as [|[k' p'] d IH]; cbn [set map]; [reflexivity|].
  destruct (k' =? k); cbn [map]; [reflexivity|]. now rewrite IH.
Qed.

Lemma for_each_percentage_opp (t : Z) (d : dict Z) :
  forall acc,
    for_each (percentage_step binary64 (- t)) d (negate_percentages acc)
    = match for_each (percentage_step binary64 t) d acc with
      | Ok r => Ok (negate_percentages r)
      | Raise e => Raise e
      end.
Proof.
  induction d as [|[k c] d IH]; intros acc; cbn [for_each]; [reflexivity|].
  unfold percentage_step at 1 3. cbn [truediv mul_int binary64].
  rewrite int_truediv_opp_r.
  destruct (Float.int_truediv c t) as [q|e]; cbn [bind]; [|reflexivity].
  rewrite <- IH. f_equal. unfold Float.mul. rewrite SFmul_opp_l.
  symmetry. apply negate_percentages_set.
Qed.

Lemma to_Q_opp (p : Float.float) : (Float.to_Q (SFopp p) == - Float.to_Q p)%Q.
Proof.
  destruct p as [s|s| |s m e]; cbn [SFopp Float.to_Q]; try reflexivity.
  destruct s; cbn [negb]; ring.
Qed.

(** X9.  [calculate_percentages] does not look at the sign of the total:
    with the opposite total it fails in the same way or returns the same
    table with every percentage negated, a 0.0 turning into -0.0.  So a
    negative total gives percentages that are negative or -0.0 where a
    positive one gives percentages that are positive or 0.0. *)
Theorem calculate_percentages_negated_total (roll_counts : dict Z) (total_rolls : Z) :
  calculate_percentages roll_counts (- total_rolls)
  = match calculate_percentages roll_counts total_rolls with
    | Ok r => Ok (negate_percentages r)
    | Raise e => Raise e
    end /\
  (forall r, keys (negate_percentages r) = keys r) /\
  (forall r k p, get k r = Some p -> get k (negate_percentages r) = Some (SFopp p)) /\
  (forall p, (Float.to_Q (SFopp p) == - Float.to_Q p)%Q) /\
  SFopp float_0 = S754_zero true.
Proof.
  split; [|split; [|split; [|split]]].
  - exact (for_each_percentage_opp total_rolls roll_counts []).
  - intros r. unfold negate_percentages, keys. rewrite map_map.
    apply map_ext. now intros [k p].
  - intros r k p. induction r as [|[k' p'] r IH]; cbn; [discriminate|].
    destruct (k' =? k); [|exact IH]. intros H. now injection H as ->.
  - exact to_Q_opp.
  - reflexivity.
Qed.

(** ** The pipeline of [main] *)


